(** * Phasor runtime values (Runtime/Value.hpp), embedded in Rocq

    The C++ class [Phasor::Value] is a [std::variant] over seven
    alternatives.  Two of them are [std::shared_ptr]s to mutable instances
    (a struct instance and a vector of values), so the embedding keeps an
    explicit store of instances and represents the two reference kinds by
    handles into it.

    Conventions of the embedding:
    - [int64_t] is [Z] with two's complement wrap-around written out
      ([wrap64]);
    - [double] is the IEEE-754 binary64 format, given by the Standard
      Library's [spec_float] at precision 53 and maximal exponent 1024;
    - a member function that can throw returns an [Outcome]; what C++
      leaves undefined (dereferencing an empty [shared_ptr], an integer
      quotient that is not an [int64_t]) is [Undefined];
    - the recursion of [operator==] and [toString] through array instances
      is bounded by a fuel argument that is consumed only by the nested
      calls on array elements. *)

From Stdlib Require Import ZArith Lia Bool.
From Stdlib Require Import Floats.SpecFloat.
From stdpp Require Import base option list strings gmap pretty.

Local Open Scope Z_scope.

(** ** Machine numbers *)

Module Int64.

Definition modulus : Z := 2 ^ 64.
Definition min_signed : Z := - 2 ^ 63.
Definition max_signed : Z := 2 ^ 63 - 1.

(** Membership in the range of [int64_t]. *)
Definition in_range (z : Z) : Prop := min_signed <= z <= max_signed.

(** Two's complement reduction of a mathematical integer to [int64_t]. *)
Definition wrap64 (z : Z) : Z := (z + 2 ^ 63) mod modulus - 2 ^ 63.

Definition add (a b : Z) : Z := wrap64 (a + b).
Definition sub (a b : Z) : Z := wrap64 (a - b).
Definition mul (a b : Z) : Z := wrap64 (a * b).
Definition neg (a : Z) : Z := wrap64 (- a).
(** [representable z]: [z] is an [int64_t]. *)
Definition representable (z : Z) : bool :=
  (min_signed <=? z) && (z <=? max_signed).

(** C++ [/] and [%] on integers truncate toward zero: [Z.quot], [Z.rem].
    Both are defined only when the quotient is an [int64_t]; the quotient of
    the smallest value by [-1] is not, and the machine division traps there:
    the result is [None].  A zero divisor is tested by the callers. *)
Definition div (a b : Z) : option Z :=
  if representable (Z.quot a b) then Some (Z.quot a b) else None.
Definition rem (a b : Z) : option Z :=
  if representable (Z.quot a b) then Some (wrap64 (Z.rem a b)) else None.

End Int64.

Module Double.

Definition prec : Z := 53.
Definition emax : Z := 1024.

(** A [double] is a [spec_float]; those that occur at run time satisfy
    [valid_binary prec emax], which the operations below preserve.
    [spec_float] has one NaN: the sign and the payload that the NaNs of the
    program carry are not represented, so a statement that equates two
    Float results speaks of operands that are not NaNs. *)
Abbreviation double := spec_float.

Definition zero : double := S754_zero false.

Definition add : double -> double -> double := SFadd prec emax.
Definition sub : double -> double -> double := SFsub prec emax.
Definition mul : double -> double -> double := SFmul prec emax.
Definition div : double -> double -> double := SFdiv prec emax.
Definition neg : double -> double := SFopp.
Definition eqb : double -> double -> bool := SFeqb.

(** The comparisons [<] and [>] of two doubles: false whenever an operand
    is a NaN. *)
Definition ltb : double -> double -> bool := SFltb.
Definition gtb (x y : double) : bool :=
  match SFcompare x y with
  | Some Gt => true
  | _ => false
  end.

Definition is_nan (d : double) : bool :=
  match d with S754_nan => true | _ => false end.

(** [static_cast<double>(int64_t)]: the nearest binary64 number, ties to
    even. *)
Definition of_int64 (i : Z) : double := binary_normalize prec emax i 0 false.

(** The integer part of a finite number, rounded toward zero. *)
Definition trunc (s : bool) (m : positive) (e : Z) : Z :=
  let a := match e with
           | Z0 => Zpos m
           | Zpos k => Z.shiftl (Zpos m) (Zpos k)
           | Zneg k => Z.shiftr (Zpos m) (Zpos k)
           end in
  if s then - a else a.

(** [static_cast<int64_t>(double)].  C++ defines the conversion only when
    the truncated value is representable; elsewhere the model returns what
    the x86-64 conversion instruction returns, the smallest [int64_t]. *)
Definition to_int64 (d : double) : Z :=
  match d with
  | S754_zero _ => 0
  | S754_finite s m e =>
      let t := trunc s m e in
      if (Int64.min_signed <=? t) && (t <=? Int64.max_signed) then t
      else Int64.min_signed
  | S754_infinity _ | S754_nan => Int64.min_signed
  end.

(** The exact value of the finite number [(-1)^s * m * 2^e] as a
    fraction with a power of two as denominator. *)
Definition numerator (s : bool) (m : positive) (e : Z) : Z :=
  (if s then Zneg m else Zpos m) * 2 ^ Z.max e 0.
Definition denominator (e : Z) : Z := 2 ^ Z.max (- e) 0.

(** [represents d z]: the number [d] is finite and its value is the
    integer [z]. *)
Definition represents (d : double) (z : Z) : Prop :=
  match d with
  | S754_zero _ => z = 0
  | S754_finite s m e => numerator s m e = z * denominator e
  | S754_infinity _ | S754_nan => False
  end.

(** [std::to_string(double)], that is [printf("%f")]: fixed notation with
    six decimals, the exact value rounded to nearest, ties to even.  The
    one NaN of [spec_float] renders as "nan"; the program prints "-nan" for
    a NaN whose sign bit is set. *)
Definition scaled6 (m : positive) (e : Z) : Z :=
  match e with
  | Z0 => Zpos m * 10 ^ 6
  | Zpos k => Zpos m * 2 ^ Zpos k * 10 ^ 6
  | Zneg k =>
      let num := Zpos m * 10 ^ 6 in
      let den := 2 ^ Zpos k in
      let q := num / den in
      let r := num mod den in
      match 2 * r ?= den with
      | Lt => q
      | Eq => if Z.even q then q else q + 1
      | Gt => q + 1
      end
  end.

Fixpoint zeros (n : nat) : string :=
  match n with
  | O => ""
  | S n' => "0" +:+ zeros n'
  end.

Definition pad_left (width : nat) (s : string) : string :=
  zeros (width - String.length s) +:+ s.

Definition fixed6 (s : bool) (n : Z) : string :=
  (if s then "-" else "") +:+ pretty (n / 10 ^ 6) +:+ "." +:+
  pad_left 6 (pretty (n mod 10 ^ 6)).

Definition to_string (d : double) : string :=
  match d with
  | S754_zero s => fixed6 s 0
  | S754_finite s m e => fixed6 s (scaled6 m e)
  | S754_infinity s => if s then "-inf" else "inf"
  | S754_nan => "nan"
  end.

End Double.

Abbreviation double := spec_float.

(** ** Outcomes of member functions *)

(** The exceptions the class can raise: [std::runtime_error] with its
    message, and the [std::bad_variant_access] of a failed [std::get]. *)
Inductive exn : Type :=
  | runtime_error (what : string)
  | bad_variant_access.

(** [Val a]: the call returns [a].  [Throw e]: it throws [e].
    [Undefined]: it does what C++ leaves undefined, and returns nothing: it
    dereferences an empty [shared_ptr], or divides the smallest [int64_t] by
    [-1].  [OutOfFuel]: the nesting of array instances exceeds the fuel
    given to the model. *)
Inductive Outcome (A : Type) : Type :=
  | Val (a : A)
  | Throw (e : exn)
  | Undefined
  | OutOfFuel.

Arguments Val {A} a.
Arguments Throw {A} e.
Arguments Undefined {A}.
Arguments OutOfFuel {A}.

#[global] Instance Outcome_ret : MRet Outcome := @Val.

#[global] Instance Outcome_bind : MBind Outcome := fun A B k m =>
  match m with
  | Val a => k a
  | Throw e => Throw e
  | Undefined => Undefined
  | OutOfFuel => OutOfFuel
  end.

(** The outcome of a machine operation that is undefined where it is
    [None]. *)
Definition defined {A : Type} (o : option A) : Outcome A :=
  match o with
  | Some a => Val a
  | None => Undefined
  end.

(** ** The data model *)

Module ValueType.
Inductive t : Type := Null | Bool | Int | Float | String | Struct | Array.

Definition eqb (a b : t) : bool :=
  match a, b with
  | Null, Null | Bool, Bool | Int, Int | Float, Float
  | String, String | Struct, Struct | Array, Array => true
  | _, _ => false
  end.
End ValueType.

(** A handle is the address held by a [shared_ptr]; two values alias the
    same instance exactly when their handles are equal. *)
Abbreviation handle := positive.

(** [Value::DataType], alternative by alternative. *)
Inductive Value : Type :=
  | VNull                      (* std::monostate *)
  | VBool (b : bool)           (* bool *)
  | VInt (i : Z)               (* int64_t *)
  | VFloat (d : double)        (* double *)
  | VString (s : string)       (* std::string *)
  | VStruct (p : handle)       (* std::shared_ptr<StructInstance> *)
  | VArray (p : handle).       (* std::shared_ptr<ArrayInstance> *)

Record StructInstance : Type := mkStruct {
  structName : string;
  fields : gmap string Value
}.

Abbreviation ArrayInstance := (list Value).

(** The instances reachable through [shared_ptr]s.  A handle that is not
    bound stands for an empty [shared_ptr]. *)
Record Heap : Type := mkHeap {
  structs : gmap handle StructInstance;
  arrays : gmap handle (list Value)
}.

Definition empty_heap : Heap := mkHeap ∅ ∅.

(** ** Introspection *)

Definition getType (v : Value) : ValueType.t :=
  match v with
  | VNull => ValueType.Null
  | VBool _ => ValueType.Bool
  | VInt _ => ValueType.Int
  | VFloat _ => ValueType.Float
  | VString _ => ValueType.String
  | VStruct _ => ValueType.Struct
  | VArray _ => ValueType.Array
  end.

Definition isNull (v : Value) : bool := ValueType.eqb (getType v) ValueType.Null.
Definition isBool (v : Value) : bool := ValueType.eqb (getType v) ValueType.Bool.
Definition isInt (v : Value) : bool := ValueType.eqb (getType v) ValueType.Int.
Definition isFloat (v : Value) : bool := ValueType.eqb (getType v) ValueType.Float.
Definition isString (v : Value) : bool := ValueType.eqb (getType v) ValueType.String.
Definition isNumber (v : Value) : bool := isInt v || isFloat v.
Definition isArray (v : Value) : bool :=
  match v with VArray _ => true | _ => false end.
Definition isStruct (v : Value) : bool :=
  match v with VStruct _ => true | _ => false end.

(** ** Accessors *)

(** [std::get<T>(data)] for the alternatives read that way. *)
Definition get_bool (v : Value) : Outcome bool :=
  match v with VBool b => Val b | _ => Throw bad_variant_access end.
Definition get_string (v : Value) : Outcome string :=
  match v with VString s => Val s | _ => Throw bad_variant_access end.
Definition get_struct (v : Value) : Outcome handle :=
  match v with VStruct p => Val p | _ => Throw bad_variant_access end.
Definition get_array (v : Value) : Outcome handle :=
  match v with VArray p => Val p | _ => Throw bad_variant_access end.

Definition asBool (v : Value) : Outcome bool := get_bool v.

Definition asInt (v : Value) : Z :=
  match v with
  | VInt i => i
  | VFloat d => Double.to_int64 d
  | _ => 0
  end.

Definition asFloat (v : Value) : double :=
  match v with
  | VFloat d => d
  | VInt i => Double.of_int64 i
  | _ => Double.zero
  end.

Definition asArray (v : Value) : Outcome handle := get_array v.
Definition asStruct (v : Value) : Outcome handle := get_struct v.

(** [*p] for a [shared_ptr] [p]. *)
Definition deref_array (h : Heap) (p : handle) : Outcome (list Value) :=
  match arrays h !! p with
  | Some a => Val a
  | None => Undefined
  end.

Definition deref_struct (h : Heap) (p : handle) : Outcome StructInstance :=
  match structs h !! p with
  | Some s => Val s
  | None => Undefined
  end.

(** ** String rendering *)

(** [asString()], with the [toString()] it falls back to as a parameter. *)
Definition asString_with (render : Value -> Outcome string) (v : Value)
  : Outcome string :=
  if isString v then get_string v else render v.

(** The loop of [toString()] over the elements of an array: [result] is the
    text built so far, and [", "] follows every element but the last. *)
Fixpoint join_elements (render : Value -> Outcome string)
    (arr : list Value) (result : string) : Outcome string :=
  match arr with
  | [] => Val result
  | x :: rest =>
      s ← render x;
      let result := result +:+ s in
      join_elements render rest
        (match rest with [] => result | _ :: _ => result +:+ ", " end)
  end.

(** [toString()].  [nested] is the call on a value one array level down. *)
Fixpoint toString (fuel : nat) (h : Heap) (v : Value) {struct fuel}
  : Outcome string :=
  let nested : Value -> Outcome string :=
    match fuel with
    | O => fun _ => OutOfFuel
    | S n => toString n h
    end in
  if isNull v then Val "null"
  else if isBool v then b ← asBool v; Val (if b : bool then "true" else "false")
  else if isInt v then Val (pretty (asInt v))
  else if isFloat v then Val (Double.to_string (asFloat v))
  else if isString v then asString_with nested v
  else if isArray v then
    p ← asArray v;
    arr ← deref_array h p;
    result ← join_elements nested arr "[";
    Val (result +:+ "]")
  else Val "unknown".

Definition asString (fuel : nat) (h : Heap) (v : Value) : Outcome string :=
  asString_with (toString fuel h) v.

(** ** Arithmetic *)

Definition operator_add (fuel : nat) (h : Heap) (a b : Value) : Outcome Value :=
  if isInt a && isInt b then Val (VInt (Int64.add (asInt a) (asInt b)))
  else if isNumber a && isNumber b then
    Val (VFloat (Double.add (asFloat a) (asFloat b)))
  else if isString a && isString b then
    x ← asString fuel h a;
    y ← asString fuel h b;
    Val (VString (x +:+ y))
  else Throw (runtime_error "Cannot add these value types").

Definition operator_sub (a b : Value) : Outcome Value :=
  if isInt a && isInt b then Val (VInt (Int64.sub (asInt a) (asInt b)))
  else if isNumber a && isNumber b then
    Val (VFloat (Double.sub (asFloat a) (asFloat b)))
  else Throw (runtime_error "Cannot subtract these value types").

Definition operator_mul (a b : Value) : Outcome Value :=
  if isInt a && isInt b then Val (VInt (Int64.mul (asInt a) (asInt b)))
  else if isNumber a && isNumber b then
    Val (VFloat (Double.mul (asFloat a) (asFloat b)))
  else Throw (runtime_error "Cannot multiply these value types").

Definition operator_div (a b : Value) : Outcome Value :=
  if isInt a && isInt b then
    if asInt b =? 0 then Throw (runtime_error "Division by zero")
    else q ← defined (Int64.div (asInt a) (asInt b)); Val (VInt q)
  else if isNumber a && isNumber b then
    if Double.eqb (asFloat b) Double.zero
    then Throw (runtime_error "Division by zero")
    else Val (VFloat (Double.div (asFloat a) (asFloat b)))
  else Throw (runtime_error "Cannot divide these value types").

Definition operator_mod (a b : Value) : Outcome Value :=
  if isInt a && isInt b then
    if asInt b =? 0 then Throw (runtime_error "Modulo by zero")
    else r ← defined (Int64.rem (asInt a) (asInt b)); Val (VInt r)
  else Throw (runtime_error "Modulo requires integer operands").

Definition operator_neg (a : Value) : Outcome Value :=
  if isInt a then Val (VInt (Int64.neg (asInt a)))
  else if isFloat a then Val (VFloat (Double.neg (asFloat a)))
  else Throw (runtime_error "Cannot negate this value type").

(** ** Truthiness *)

(** [isTruthy()].  The source evaluates [asString()] once per comparison;
    the calls are on the same unchanged value, so the model binds it once. *)
Definition isTruthy (fuel : nat) (h : Heap) (v : Value) : Outcome bool :=
  if isNull v then Val false
  else if isBool v then asBool v
  else if isInt v then Val (negb (asInt v =? 0))
  else if isFloat v then Val (negb (Double.eqb (asFloat v) Double.zero))
  else if isString v then
    s ← asString fuel h v;
    if String.eqb s "true" || String.eqb s "1" then Val true
    else if String.eqb s "false" || String.eqb s "0" then Val false
    else Val (negb (String.eqb s ""))
  else Val false.

Definition operator_not (fuel : nat) (h : Heap) (v : Value) : Outcome Value :=
  t ← isTruthy fuel h v; Val (VBool (negb t)).

(** ** Equality *)

(** [std::equal] over two ranges of the same length: stops at the first
    pair that differs. *)
Fixpoint equal_range (eq : Value -> Value -> Outcome bool)
    (xs ys : list Value) : Outcome bool :=
  match xs, ys with
  | x :: xs', y :: ys' =>
      b ← eq x y;
      if b : bool then equal_range eq xs' ys' else Val false
  | _, _ => Val true
  end.

(** [operator==] of [std::vector<Value>]. *)
Definition vector_eq (eq : Value -> Value -> Outcome bool)
    (xs ys : list Value) : Outcome bool :=
  if Nat.eqb (length xs) (length ys) then equal_range eq xs ys else Val false.

(** [operator==].  [nested] is the comparison of two array elements. *)
Fixpoint operator_eq (fuel : nat) (h : Heap) (a b : Value) {struct fuel}
  : Outcome bool :=
  let nested : Value -> Value -> Outcome bool :=
    match fuel with
    | O => fun _ _ => OutOfFuel
    | S n => operator_eq n h
    end in
  if negb (ValueType.eqb (getType a) (getType b)) then Val false
  else if isNull a then Val true
  else if isBool a then x ← asBool a; y ← asBool b; Val (Bool.eqb x y)
  else if isInt a then Val (asInt a =? asInt b)
  else if isFloat a then Val (Double.eqb (asFloat a) (asFloat b))
  else if isString a then
    x ← asString fuel h a;
    y ← asString fuel h b;
    Val (String.eqb x y)
  else if isArray a then
    if negb (isArray b) then Val false
    else
      pa ← asArray a;
      self_arr ← deref_array h pa;
      pb ← asArray b;
      other_arr ← deref_array h pb;
      vector_eq nested self_arr other_arr
  else Val false.

Definition operator_ne (fuel : nat) (h : Heap) (a b : Value) : Outcome bool :=
  r ← operator_eq fuel h a b; Val (negb r).

(** ** Struct and array instances *)

(** [createStruct(name)]: [make_shared] yields an address not in use. *)
Definition createStruct (name : string) (h : Heap) : Value * Heap :=
  let p := fresh (dom (structs h)) in
  (VStruct p, mkHeap (<[p := mkStruct name ∅]> (structs h)) (arrays h)).

Definition createArray (elements : list Value) (h : Heap) : Value * Heap :=
  let p := fresh (dom (arrays h)) in
  (VArray p, mkHeap (structs h) (<[p := elements]> (arrays h))).

Definition getField (h : Heap) (v : Value) (name : string) : Outcome Value :=
  if negb (isStruct v)
  then Throw (runtime_error "getField() called on non-struct value")
  else
    p ← get_struct v;
    s ← deref_struct h p;
    match fields s !! name with
    | None => Val VNull
    | Some x => Val x
    end.

(** [setField(name, value)] writes through the handle: the result is the
    store in which the shared instance has the new field. *)
Definition setField (h : Heap) (v : Value) (name : string) (value : Value)
  : Outcome Heap :=
  if negb (isStruct v)
  then Throw (runtime_error "setField() called on non-struct value")
  else
    p ← get_struct v;
    s ← deref_struct h p;
    Val (mkHeap
           (<[p := mkStruct (structName s) (<[name := value]> (fields s))]>
              (structs h))
           (arrays h)).

Definition hasField (h : Heap) (v : Value) (name : string) : Outcome bool :=
  if negb (isStruct v) then Val false
  else
    p ← get_struct v;
    s ← deref_struct h p;
    Val (bool_decide (is_Some (fields s !! name))).

(** ** Logical connectives *)

(** [logicalAnd] and [logicalOr]: the right operand's truthiness is
    evaluated only when the left one does not decide the result. *)
Definition logicalAnd (fuel : nat) (h : Heap) (a b : Value) : Outcome Value :=
  x ← isTruthy fuel h a;
  if x : bool then y ← isTruthy fuel h b; Val (VBool y)
  else Val (VBool false).

Definition logicalOr (fuel : nat) (h : Heap) (a b : Value) : Outcome Value :=
  x ← isTruthy fuel h a;
  if x : bool then Val (VBool true)
  else y ← isTruthy fuel h b; Val (VBool y).

(** ** Ordering *)

(** [operator>] of [std::string]: the lexicographic comparison of the
    characters as unsigned bytes is positive. *)
Definition string_gtb (x y : string) : bool :=
  match String.compare x y with
  | Gt => true
  | _ => false
  end.

Definition operator_lt (fuel : nat) (h : Heap) (a b : Value) : Outcome bool :=
  if isInt a && isInt b then Val (asInt a <? asInt b)
  else if isNumber a && isNumber b then
    Val (Double.ltb (asFloat a) (asFloat b))
  else if isString a && isString b then
    x ← asString fuel h a;
    y ← asString fuel h b;
    Val (String.ltb x y)
  else Throw (runtime_error "Cannot compare these value types ").

Definition operator_gt (fuel : nat) (h : Heap) (a b : Value) : Outcome bool :=
  if isInt a && isInt b then Val (asInt a >? asInt b)
  else if isNumber a && isNumber b then
    Val (Double.gtb (asFloat a) (asFloat b))
  else if isString a && isString b then
    x ← asString fuel h a;
    y ← asString fuel h b;
    Val (string_gtb x y)
  else Throw (runtime_error "Cannot compare these value types ").

Definition operator_le (fuel : nat) (h : Heap) (a b : Value) : Outcome bool :=
  r ← operator_gt fuel h a b; Val (negb r).

Definition operator_ge (fuel : nat) (h : Heap) (a b : Value) : Outcome bool :=
  r ← operator_lt fuel h a b; Val (negb r).

(** ** C strings *)

(** The C string that starts at the first character of [s]: the characters
    before the first NUL. *)
Fixpoint c_string (s : string) : string :=
  match s with
  | EmptyString => EmptyString
  | String c s' =>
      if Ascii.eqb c Ascii.zero then EmptyString else String c (c_string s')
  end.

(** [has_nul s]: a character of [s] is the NUL. *)
Fixpoint has_nul (s : string) : bool :=
  match s with
  | EmptyString => false
  | String c s' => Ascii.eqb c Ascii.zero || has_nul s'
  end.

(** [c_str()]: a pointer to the characters of a string value, which are
    followed by a NUL; the model returns the C string found there. *)
Definition c_str (v : Value) : Outcome string :=
  if negb (isString v)
  then Throw (runtime_error "c_str() can only be called on string values")
  else s ← get_string v; Val (c_string s).

(** ** NaN operands *)

(** [is_nan_value v]: [v] is a Float whose payload is a NaN. *)
Definition is_nan_value (v : Value) : bool :=
  match v with
  | VFloat d => Double.is_nan d
  | _ => false
  end.

(** ** Composite expressions *)


(** ** Shapes of values in a store *)

(** The comparison of two array elements at a given fuel, as bound to
    [nested] inside [operator_eq]. *)
Definition nested_eq (fuel : nat) (h : Heap) : Value -> Value -> Outcome bool :=
  match fuel with
  | O => fun _ _ => OutOfFuel
  | S n => operator_eq n h
  end.

(** The rendering of an array element at a given fuel, as bound to
    [nested] inside [toString]. *)
Definition nested_toString (fuel : nat) (h : Heap) : Value -> Outcome string :=
  match fuel with
  | O => fun _ => OutOfFuel
  | S n => toString n h
  end.

(** [Equal h a b]: in the store [h], [a == b] returns true. *)
Definition Equal (h : Heap) (a b : Value) : Prop :=
  exists fuel, operator_eq fuel h a b = Val true.

(** [well_nested n h v]: every array handle reachable from [v] is bound in
    [h], and arrays nest at most [n] levels deep below [v]. *)
Fixpoint well_nested (n : nat) (h : Heap) (v : Value) {struct n} : bool :=
  match v with
  | VArray p =>
      match n with
      | O => false
      | S n' =>
          match arrays h !! p with
          | Some arr => forallb (well_nested n' h) arr
          | None => false
          end
      end
  | _ => true
  end.

(** [no_struct_no_nan n h v]: [v] is well nested and neither [v] nor an
    array element below it is a struct value or a NaN. *)
Fixpoint no_struct_no_nan (n : nat) (h : Heap) (v : Value) {struct n} : bool :=
  match v with
  | VFloat d => negb (Double.is_nan d)
  | VStruct _ => false
  | VArray p =>
      match n with
      | O => false
      | S n' =>
          match arrays h !! p with
          | Some arr => forallb (no_struct_no_nan n' h) arr
          | None => false
          end
      end
  | _ => true
  end.

(** The store after [Value a = Value::createArray(); a.asArray()->push_back(a);]:
    the array instance holds a handle to itself. *)
Definition self_containing : Heap :=
  mkHeap ∅ {[ 1%positive := [VArray 1%positive] ]}.

(** The stores after [createArray] of the lists [[1,2]], [[1,2]], [[2,1]]
    and of two empty lists, with the values returned. *)
Definition sample_arrays : list Value * Heap :=
  let '(a, h) := createArray [VInt 1; VInt 2] empty_heap in
  let '(b, h) := createArray [VInt 1; VInt 2] h in
  let '(c, h) := createArray [VInt 2; VInt 1] h in
  let '(d, h) := createArray [] h in
  let '(e, h) := createArray [] h in
  ([a; b; c; d; e], h).

(** * Properties *)

(** ** Machine integers *)

(** Closes goals that compare concrete integers with the bounds of
    [int64_t]. *)
Ltac int64_bounds :=
  unfold Int64.in_range, Int64.min_signed, Int64.max_signed in *; lia.

Lemma wrap64_in_range (z : Z) : Int64.in_range (Int64.wrap64 z).
Proof.
  unfold Int64.in_range, Int64.wrap64, Int64.min_signed, Int64.max_signed,
    Int64.modulus.
  pose proof (Z.mod_pos_bound (z + 2 ^ 63) (2 ^ 64)). lia.
Qed.

Lemma wrap64_id (z : Z) : Int64.in_range z -> Int64.wrap64 z = z.
Proof.
  unfold Int64.in_range, Int64.wrap64, Int64.min_signed, Int64.max_signed,
    Int64.modulus.
  intros Hz. rewrite Z.mod_small; lia.
Qed.

Lemma wrap64_mod (z : Z) : Int64.wrap64 z mod Int64.modulus = z mod Int64.modulus.
Proof.
  unfold Int64.wrap64, Int64.modulus.
  rewrite Zminus_mod, Zmod_mod, <- Zminus_mod. f_equal. lia.
Qed.

Lemma wrap64_congr (x y : Z) :
  x mod Int64.modulus = y mod Int64.modulus -> Int64.wrap64 x = Int64.wrap64 y.
Proof.
  unfold Int64.wrap64, Int64.modulus. intros Hxy.
  rewrite (Zplus_mod x), (Zplus_mod y), Hxy. reflexivity.
Qed.

(** The truncated quotient of two [int64_t] overflows in one case only. *)
Lemma quot_in_range (x y : Z) :
  Int64.in_range x -> Int64.in_range y -> y <> 0 ->
  ~ (x = Int64.min_signed /\ y = -1) ->
  Int64.in_range (x ÷ y).
Proof.
  unfold Int64.in_range, Int64.min_signed, Int64.max_signed.
  intros Hx Hy Hy0 Hov.
  assert (Habs : Z.abs (x ÷ y) <= Z.abs x).
  { rewrite <- Z.quot_abs by assumption.
    apply Z.quot_le_upper_bound; [lia|].
    assert (1 <= Z.abs y) by lia. nia. }
  destruct (Z.eq_dec x (- 2 ^ 63)) as [->|Hx'].
  - assert (Hy1 : y <> -1) by (intros ->; apply Hov; split; reflexivity).
    destruct (Z.eq_dec y 1) as [->|Hy2].
    + rewrite Z.quot_1_r. lia.
    + assert (Hq : Z.abs (- 2 ^ 63 ÷ y) <= 2 ^ 62).
      { rewrite <- Z.quot_abs by assumption.
        apply Z.quot_le_upper_bound; [lia|].
        assert (2 <= Z.abs y) by lia.
        change (Z.abs (- 2 ^ 63)) with (2 * 2 ^ 62). nia. }
      lia.
  - lia.
Qed.

Lemma rem_in_range (x y : Z) :
  Int64.in_range x -> Int64.in_range y -> y <> 0 -> Int64.in_range (Z.rem x y).
Proof.
  unfold Int64.in_range, Int64.min_signed, Int64.max_signed.
  intros Hx Hy Hy0.
  pose proof (Z.rem_abs x y Hy0) as Habs.
  assert (Hb : Z.abs (Z.rem x y) < Z.abs y).
  { rewrite <- Habs. apply Z.rem_bound_pos; lia. }
  lia.
Qed.

(** ** Tag dispatch of the arithmetic operators *)

Lemma isInt_pair_number (a b : Value) :
  isInt a && isInt b = true -> isNumber a && isNumber b = true.
Proof. destruct a, b; intros H; try reflexivity; discriminate H. Qed.

(** C6. Addition dispatches on the operand tags: Int+Int is the Int sum
    (reduced to 64 bits); two numeric operands that are not both Int give
    the Float sum, each Int operand first converted to Float;
    String+String is the concatenation; every other pairing of tags throws
    "Cannot add these value types". *)
Theorem add_dispatches_on_tags (fuel : nat) (h : Heap) :
  (forall x y, operator_add fuel h (VInt x) (VInt y)
               = Val (VInt (Int64.wrap64 (x + y)))) /\
  (forall x e, operator_add fuel h (VInt x) (VFloat e)
               = Val (VFloat (Double.add (Double.of_int64 x) e))) /\
  (forall d y, operator_add fuel h (VFloat d) (VInt y)
               = Val (VFloat (Double.add d (Double.of_int64 y)))) /\
  (forall d e, operator_add fuel h (VFloat d) (VFloat e)
               = Val (VFloat (Double.add d e))) /\
  (forall s t, operator_add fuel h (VString s) (VString t)
               = Val (VString (s +:+ t))) /\
  (forall a b, isNumber a && isNumber b = false ->
               isString a && isString b = false ->
               operator_add fuel h a b
               = Throw (runtime_error "Cannot add these value types")).
Proof.
  repeat split; try reflexivity.
  intros a b Hnum Hstr. unfold operator_add.
  destruct (isInt a && isInt b) eqn:Hint.
  - apply isInt_pair_number in Hint. congruence.
  - rewrite Hnum, Hstr. reflexivity.
Qed.

Lemma add_dispatches_on_tags_witness :
  operator_add 0 empty_heap (VBool true) (VInt 1)
  = Throw (runtime_error "Cannot add these value types").
Proof.
  apply (add_dispatches_on_tags 0 empty_heap); reflexivity.
Defined.

Lemma representable_in_range (z : Z) :
  Int64.representable z = true <-> Int64.in_range z.
Proof.
  unfold Int64.representable, Int64.in_range.
  rewrite andb_true_iff, !Z.leb_le. tauto.
Qed.

(** Where the quotient is an [int64_t], [/] and [%] are defined and are the
    truncating quotient and its remainder. *)
Lemma int64_div_rem_defined (x y : Z) :
  Int64.in_range x -> Int64.in_range y -> y <> 0 ->
  ~ (x = Int64.min_signed /\ y = -1) ->
  Int64.div x y = Some (x ÷ y) /\ Int64.rem x y = Some (Z.rem x y).
Proof.
  intros Hx Hy Hy0 Hov. unfold Int64.div, Int64.rem.
  rewrite (proj2 (representable_in_range (x ÷ y)))
    by (apply quot_in_range; assumption).
  rewrite (wrap64_id (Z.rem x y)) by (apply rem_in_range; assumption).
  split; reflexivity.
Qed.

(** C3, as the code has it. The quotient of the smallest Int by -1 is
    [2^63], which is no [int64_t]: the division of line 257 is reached (the
    divisor is not 0) and is undefined there; no Int is returned. *)
Lemma div_smallest_by_minus_one :
  Int64.in_range Int64.min_signed /\ Int64.in_range (-1) /\
  Int64.min_signed ÷ -1 = 2 ^ 63 /\ ~ Int64.in_range (2 ^ 63) /\
  operator_div (VInt Int64.min_signed) (VInt (-1)) = Undefined.
Proof.
  split; [int64_bounds|]. split; [int64_bounds|]. split; [reflexivity|].
  split; [int64_bounds | reflexivity].
Qed.

(** C3, amended. Division: Int÷Int is the quotient truncated toward zero
    whenever that quotient is an [int64_t], that is for every pair of Ints
    with a nonzero divisor but the smallest Int divided by -1, where the
    division is undefined and returns nothing; it throws "Division by zero"
    for the Int divisor 0; two numeric operands that are not both Int give
    the Float quotient, and throw "Division by zero" when the divisor's
    Float value compares equal to 0.0; a pairing with a non-numeric operand
    throws "Cannot divide these value types"; with a numeric dividend a
    zero divisor, Int or Float of either sign, always throws and never
    produces a value. *)
Theorem div_dispatches_on_tags :
  (forall x y, Int64.in_range x -> Int64.in_range y -> y <> 0 ->
     ~ (x = Int64.min_signed /\ y = -1) ->
     operator_div (VInt x) (VInt y) = Val (VInt (x ÷ y))) /\
  operator_div (VInt Int64.min_signed) (VInt (-1)) = Undefined /\
  (forall x, operator_div (VInt x) (VInt 0)
             = Throw (runtime_error "Division by zero")) /\
  (forall a b, isNumber a = true -> isNumber b = true ->
     isInt a && isInt b = false ->
     operator_div a b =
       if Double.eqb (asFloat b) Double.zero
       then Throw (runtime_error "Division by zero")
       else Val (VFloat (Double.div (asFloat a) (asFloat b)))) /\
  (forall a b, isNumber a && isNumber b = false ->
     operator_div a b = Throw (runtime_error "Cannot divide these value types")) /\
  (forall a b, isNumber a = true ->
     b = VInt 0 \/ (exists s, b = VFloat (S754_zero s)) ->
     operator_div a b = Throw (runtime_error "Division by zero")).
Proof.
  split; [|split; [|split; [|split; [|split]]]].
  - intros x y Hx Hy Hy0 Hov. unfold operator_div. simpl.
    destruct (Z.eqb_spec y 0); [contradiction|].
    rewrite (proj1 (int64_div_rem_defined x y Hx Hy Hy0 Hov)). reflexivity.
  - reflexivity.
  - reflexivity.
  - intros a b Ha Hb Hint. unfold operator_div.
    rewrite Hint, Ha, Hb. reflexivity.
  - intros a b Hnum. unfold operator_div.
    destruct (isInt a && isInt b) eqn:Hint.
    + apply isInt_pair_number in Hint. congruence.
    + rewrite Hnum. reflexivity.
  - intros a b Ha [-> | [s ->]]; destruct a; try discriminate Ha;
      try reflexivity; destruct s; reflexivity.
Qed.

Lemma div_dispatches_on_tags_witness :
  operator_div (VInt (-7)) (VInt 2) = Val (VInt (-3)) /\
  operator_div (VFloat (Double.of_int64 1)) (VInt 0)
  = Throw (runtime_error "Division by zero") /\
  operator_div (VString "a") (VInt 0)
  = Throw (runtime_error "Cannot divide these value types").
Proof.
  destruct div_dispatches_on_tags as (Hq & _ & _ & _ & Hbad & Hzero).
  split; [|split].
  - apply (Hq (-7) 2); int64_bounds.
  - apply (Hzero (VFloat (Double.of_int64 1)) (VInt 0));
      [reflexivity | left; reflexivity].
  - apply (Hbad (VString "a") (VInt 0)); reflexivity.
Defined.




(** ** Consistency of division and modulo *)





(** ** Truthiness *)

Lemma double_eqb_zero (d : double) :
  Double.eqb d Double.zero = match d with S754_zero _ => true | _ => false end.
Proof. destruct d as [s|s| |s m e]; try destruct s; reflexivity. Qed.

(** C8. [isTruthy] returns a boolean for every value and never throws:
    Null is false; a Bool is its own value; an Int is true exactly when it
    is not 0; a Float is true exactly when it does not compare equal to 0.0
    (so both zeros are false and a NaN is true); the strings "true" and "1"
    are true, "false" and "0" are false, any other non-empty string is
    true and the empty string is false; a struct and an array are false
    whatever they hold. *)
Theorem isTruthy_table (fuel : nat) (h : Heap) :
  (forall v, exists b, isTruthy fuel h v = Val b) /\
  isTruthy fuel h VNull = Val false /\
  (forall b, isTruthy fuel h (VBool b) = Val b) /\
  (forall i, isTruthy fuel h (VInt i) = Val (bool_decide (i <> 0))) /\
  (forall d, isTruthy fuel h (VFloat d)
             = Val (match d with S754_zero _ => false | _ => true end)) /\
  (forall s, s = "true" \/ s = "1" -> isTruthy fuel h (VString s) = Val true) /\
  (forall s, s = "false" \/ s = "0" -> isTruthy fuel h (VString s) = Val false) /\
  (forall s, s <> "true" -> s <> "1" -> s <> "false" -> s <> "0" ->
             isTruthy fuel h (VString s) = Val (bool_decide (s <> ""))) /\
  (forall p, isTruthy fuel h (VStruct p) = Val false) /\
  (forall p, isTruthy fuel h (VArray p) = Val false).
Proof.
  assert (Hstr : forall s, isTruthy fuel h (VString s) =
            Val (if String.eqb s "true" || String.eqb s "1" then true
                 else if String.eqb s "false" || String.eqb s "0" then false
                 else negb (String.eqb s ""))).
  { intros s. unfold isTruthy, asString, asString_with. simpl.
    destruct (String.eqb s "true" || String.eqb s "1"); [reflexivity|].
    destruct (String.eqb s "false" || String.eqb s "0"); reflexivity. }
  repeat split.
  - intros [ |b|i|d|s|p|p]; try (eexists; reflexivity).
    rewrite Hstr. eexists; reflexivity.
  - intros i. unfold isTruthy. simpl. f_equal.
    case_bool_decide; destruct (Z.eqb_spec i 0); simpl; congruence.
  - intros d. unfold isTruthy. simpl. rewrite double_eqb_zero.
    destruct d; reflexivity.
  - intros s [-> | ->]; reflexivity.
  - intros s [-> | ->]; reflexivity.
  - intros s H1 H2 H3 H4. rewrite Hstr.
    apply String.eqb_neq in H1, H2, H3, H4. rewrite H1, H2, H3, H4. simpl.
    f_equal. case_bool_decide; destruct (String.eqb_spec s ""); simpl;
      congruence.
Qed.

Lemma isTruthy_table_witness :
  isTruthy 0 empty_heap (VString "1") = Val true /\
  isTruthy 0 empty_heap (VString "false") = Val false /\
  isTruthy 0 empty_heap (VString "no") = Val true.
Proof.
  destruct (isTruthy_table 0 empty_heap)
    as (_ & _ & _ & _ & _ & Ht & Hf & Ho & _).
  split; [|split].
  - apply (Ht "1"). right. reflexivity.
  - apply (Hf "false"). left. reflexivity.
  - apply (Ho "no"); discriminate.
Defined.

(** ** Rendering of struct values *)

(** C10. [toString] on a struct value returns "unknown": it does not throw,
    does not read the instance, and the result is the same for every type
    name and every field map. *)
Theorem toString_struct_unknown (fuel : nat) (h : Heap) (p : handle) :
  toString fuel h (VStruct p) = Val "unknown".
Proof. destruct fuel; reflexivity. Qed.

(** ** Struct operations *)

Lemma createStruct_fresh (name : string) (h : Heap) :
  exists p, fst (createStruct name h) = VStruct p /\
            structs h !! p = None /\
            structs (snd (createStruct name h)) !! p = Some (mkStruct name ∅) /\
            arrays (snd (createStruct name h)) = arrays h.
Proof.
  exists (fresh (dom (structs h))). unfold createStruct. simpl.
  split; [reflexivity|]. split; [|split; [|reflexivity]].
  - apply not_elem_of_dom. apply is_fresh.
  - apply lookup_insert_eq.
Qed.

(** C2, as the code has it. [hasField] on a value that is not a struct
    returns false and does not throw. *)
Lemma hasField_non_struct_returns_false :
  hasField empty_heap (VInt 1) "x" = Val false /\
  ~ (exists e, hasField empty_heap (VInt 1) "x" = Throw e).
Proof.
  split; [reflexivity|]. intros [e He]. discriminate He.
Qed.

(** C2, amended. On a value whose tag is not Struct, [getField] and
    [setField] throw ("... called on non-struct value") and [hasField]
    returns false; [createStruct] is a static factory, takes no receiver and
    returns a struct value bound to a new instance (its handle was bound to
    no instance before) with an empty field map;
    on a struct value with a live instance, [getField] of a name absent
    from the field map returns Null. *)
Theorem struct_operations_on_tags :
  (forall h v name, isStruct v = false ->
     getField h v name
     = Throw (runtime_error "getField() called on non-struct value")) /\
  (forall h v name x, isStruct v = false ->
     setField h v name x
     = Throw (runtime_error "setField() called on non-struct value")) /\
  (forall h v name, isStruct v = false -> hasField h v name = Val false) /\
  (forall name h, exists p,
     fst (createStruct name h) = VStruct p /\
     structs h !! p = None /\
     structs (snd (createStruct name h)) !! p = Some (mkStruct name ∅)) /\
  (forall h p s name, structs h !! p = Some s -> fields s !! name = None ->
     getField h (VStruct p) name = Val VNull).
Proof.
  split; [|split; [|split; [|split]]].
  - intros h v name Hv. unfold getField. rewrite Hv. reflexivity.
  - intros h v name x Hv. unfold setField. rewrite Hv. reflexivity.
  - intros h v name Hv. unfold hasField. rewrite Hv. reflexivity.
  - intros name h.
    destruct (createStruct_fresh name h) as (p & Hp & Hfresh & Hs & _).
    exists p. split; [assumption|]. split; assumption.
  - intros h p s name Hs Hf. unfold getField, deref_struct. simpl.
    rewrite Hs. simpl. rewrite Hf. reflexivity.
Qed.

Lemma struct_operations_on_tags_witness :
  getField empty_heap (VString "s") "x"
  = Throw (runtime_error "getField() called on non-struct value") /\
  getField (snd (createStruct "T" empty_heap)) (fst (createStruct "T" empty_heap)) "x"
  = Val VNull.
Proof.
  destruct struct_operations_on_tags as (Hget & _ & _ & _ & Habs).
  split.
  - apply (Hget empty_heap (VString "s") "x"). reflexivity.
  - apply (Habs (snd (createStruct "T" empty_heap)) 1%positive (mkStruct "T" ∅) "x");
      reflexivity.
Defined.

(** ** Numeric coercions *)

Lemma digits2_pos_bounds (m : positive) :
  2 ^ (Zpos (digits2_pos m) - 1) <= Zpos m < 2 ^ Zpos (digits2_pos m).
Proof.
  induction m as [p IH|p IH|]; simpl digits2_pos.
  - rewrite Pos2Z.inj_succ. change (Zpos p~1) with (2 * Zpos p + 1).
    replace (Z.succ (Zpos (digits2_pos p)) - 1)
      with (Z.succ (Zpos (digits2_pos p) - 1)) by lia.
    rewrite !Z.pow_succ_r by lia.
    generalize dependent (2 ^ (Zpos (digits2_pos p) - 1)).
    generalize (2 ^ Zpos (digits2_pos p)). intros; lia.
  - rewrite Pos2Z.inj_succ. change (Zpos p~0) with (2 * Zpos p).
    replace (Z.succ (Zpos (digits2_pos p)) - 1)
      with (Z.succ (Zpos (digits2_pos p) - 1)) by lia.
    rewrite !Z.pow_succ_r by lia.
    generalize dependent (2 ^ (Zpos (digits2_pos p) - 1)).
    generalize (2 ^ Zpos (digits2_pos p)). intros; lia.
  - simpl. lia.
Qed.

Lemma iter_xO_value (m k : positive) :
  Zpos (Pos.iter xO m k) = Zpos m * 2 ^ Zpos k.
Proof.
  induction k as [|k IH] using Pos.peano_ind.
  - simpl. lia.
  - rewrite Pos.iter_succ.
    change (Zpos (Pos.iter xO m k)~0) with (2 * Zpos (Pos.iter xO m k)).
    rewrite IH, Pos2Z.inj_succ, Z.pow_succ_r by lia. ring.
Qed.

Lemma iter_xO_digits (m k : positive) :
  digits2_pos (Pos.iter xO m k) = (digits2_pos m + k)%positive.
Proof.
  induction k as [|k IH] using Pos.peano_ind.
  - simpl. lia.
  - rewrite Pos.iter_succ. simpl. rewrite IH. lia.
Qed.

(** A mantissa of full width at an exponent in range is left as it is by
    the rounding step. *)
Lemma round_aux_canonical (s : bool) (m : positive) (e : Z) :
  Zpos (digits2_pos m) = 53 -> -1074 <= e <= 971 ->
  binary_round_aux Double.prec Double.emax s (Zpos m) e loc_Exact
  = S754_finite s m e.
Proof.
  intros Hd He. unfold binary_round_aux, shr_fexp. simpl Zdigits2. rewrite Hd.
  assert (Hf : fexp Double.prec Double.emax (53 + e) - e = 0).
  { unfold fexp, emin, Double.prec, Double.emax. lia. }
  rewrite Hf. simpl. rewrite Hd, Hf. simpl.
  destruct (Z.leb_spec e (Double.emax - Double.prec)) as [_|Hgt]; [reflexivity|].
  unfold Double.emax, Double.prec in Hgt. lia.
Qed.

(** Below [2^53] the conversion only normalises: the mantissa is shifted
    left and the exponent lowered by the same amount. *)
Lemma binary_round_small (s : bool) (m : positive) :
  Zpos m < 2 ^ 53 ->
  exists m' e,
    binary_round Double.prec Double.emax s m 0 = S754_finite s m' e /\
    e <= 0 /\ Zpos m' = Zpos m * 2 ^ (- e).
Proof.
  intros Hm. pose proof (digits2_pos_bounds m) as [Hlo Hhi].
  assert (Hd : Zpos (digits2_pos m) <= 53).
  { destruct (Z.le_gt_cases (Zpos (digits2_pos m)) 53) as [|Hgt]; [assumption|].
    assert (2 ^ 53 <= 2 ^ (Zpos (digits2_pos m) - 1))
      by (apply Z.pow_le_mono_r; lia).
    lia. }
  unfold binary_round.
  assert (Hf : fexp Double.prec Double.emax (Zpos (digits2_pos m) + 0)
               = Zpos (digits2_pos m) - 53).
  { unfold fexp, emin, Double.prec, Double.emax. lia. }
  rewrite Hf. unfold shl_align.
  destruct (Zpos (digits2_pos m) - 53 - 0) as [|k|k] eqn:Hk.
  - exists m, 0. split; [|split; [lia | simpl; lia]].
    apply round_aux_canonical; lia.
  - lia.
  - exists (Pos.iter xO m k), (Zpos (digits2_pos m) - 53).
    split; [|split; [lia|]].
    + apply round_aux_canonical; [|lia].
      rewrite iter_xO_digits, Pos2Z.inj_add. lia.
    + rewrite iter_xO_value. f_equal. f_equal. lia.
Qed.

Lemma of_int64_exact (i : Z) :
  Z.abs i <= 2 ^ 53 -> Double.represents (Double.of_int64 i) i.
Proof.
  intros Hi. destruct i as [|m|m].
  - reflexivity.
  - destruct (Z.eq_dec (Zpos m) (2 ^ 53)) as [Heq|Hne].
    + injection Heq as ->. vm_compute. reflexivity.
    + destruct (binary_round_small false m) as (m' & e & Hr & He & Hv);
        [simpl in Hi; lia|].
      unfold Double.of_int64, binary_normalize. rewrite Hr.
      unfold Double.represents, Double.numerator, Double.denominator.
      rewrite Hv, (Z.max_r e 0), (Z.max_l (- e) 0) by lia. simpl (2 ^ 0). lia.
  - destruct (Z.eq_dec (Zpos m) (2 ^ 53)) as [Heq|Hne].
    + injection Heq as ->. vm_compute. reflexivity.
    + destruct (binary_round_small true m) as (m' & e & Hr & He & Hv);
        [simpl in Hi; lia|].
      unfold Double.of_int64, binary_normalize. rewrite Hr.
      unfold Double.represents, Double.numerator, Double.denominator.
      rewrite (Z.max_r e 0), (Z.max_l (- e) 0) by lia. simpl (2 ^ 0).
      change (Zneg m') with (- Zpos m'). change (Zneg m) with (- Zpos m).
      rewrite Hv. lia.
Qed.

(** [Double.trunc] is the quotient, truncated toward zero, of the exact
    value's numerator by its denominator. *)
Lemma trunc_quot (s : bool) (m : positive) (e : Z) :
  Double.trunc s m e = Double.numerator s m e ÷ Double.denominator e.
Proof.
  unfold Double.trunc, Double.numerator, Double.denominator.
  destruct e as [|k|k].
  - change (2 ^ Z.max 0 0) with 1. change (2 ^ Z.max (- 0) 0) with 1.
    rewrite Z.quot_1_r. destruct s; lia.
  - rewrite (Z.max_l (Zpos k) 0), (Z.max_r (- Zpos k) 0) by lia.
    change (2 ^ 0) with 1. rewrite Z.quot_1_r, Z.shiftl_mul_pow2 by lia.
    destruct s; [change (Zneg m) with (- Zpos m)|]; lia.
  - rewrite (Z.max_r (Zneg k) 0), (Z.max_l (- Zneg k) 0) by lia.
    change (2 ^ 0) with 1. change (- Zneg k) with (Zpos k).
    rewrite Z.shiftr_div_pow2, !Z.mul_1_r by lia.
    assert (Hpow : 0 < 2 ^ Zpos k) by (apply Z.pow_pos_nonneg; lia).
    destruct s.
    + change (Zneg m) with (- Zpos m).
      rewrite Z.quot_opp_l, Z.quot_div_nonneg by lia. reflexivity.
    + rewrite Z.quot_div_nonneg by lia. reflexivity.
Qed.

(** ** Conversion of Ints to Floats: rounding *)

Lemma iter_pos_iter {A : Type} (f : A -> A) (p : positive) (x : A) :
  SpecFloat.iter_pos f p x = Pos.iter f x p.
Proof.
  revert x. induction p as [p IH|p IH|]; intros x; simpl.
  - rewrite !IH. rewrite <- !Pos.iter_swap. reflexivity.
  - rewrite !IH. reflexivity.
  - reflexivity.
Qed.

Lemma shr_1_spec (m : Z) (r s : bool) :
  0 <= m ->
  shr_1 (Build_shr_record m r s) = Build_shr_record (m / 2) (Z.odd m) (r || s).
Proof.
  intros Hm. rewrite <- Z.div2_div.
  destruct m as [|p|p]; [reflexivity| |lia].
  destruct p; reflexivity.
Qed.

(** After [k] right shifts the record holds the quotient by [2^k], the bit
    shifted out last, and whether a bit shifted out before was set. *)
Lemma shr_iter_spec (m : Z) (k : positive) :
  0 <= m ->
  Pos.iter shr_1 (Build_shr_record m false false) k =
  Build_shr_record (m / 2 ^ Zpos k)
                   (Z.odd (m / 2 ^ (Zpos k - 1)))
                   (negb (m mod 2 ^ (Zpos k - 1) =? 0)).
Proof.
  intros Hm. induction k as [|k IH] using Pos.peano_ind.
  - change (Pos.iter shr_1 (Build_shr_record m false false) 1)
      with (shr_1 (Build_shr_record m false false)).
    rewrite shr_1_spec by exact Hm.
    change (2 ^ (1 - 1)) with 1. rewrite Z.div_1_r, Z.mod_1_r. reflexivity.
  - rewrite Pos.iter_succ, IH.
    assert (Hpow : 0 < 2 ^ (Zpos k - 1)) by (apply Z.pow_pos_nonneg; lia).
    assert (Hk : 2 ^ Zpos k = 2 ^ (Zpos k - 1) * 2).
    { replace (Zpos k) with (Z.succ (Zpos k - 1)) at 1 by lia.
      rewrite Z.pow_succ_r by lia. ring. }
    rewrite shr_1_spec by (apply Z.div_pos; [exact Hm | apply Z.pow_pos_nonneg; lia]).
    rewrite Pos2Z.inj_succ.
    replace (Z.succ (Zpos k) - 1) with (Zpos k) by lia.
    rewrite Z.pow_succ_r by lia. f_equal.
    + rewrite (Z.mul_comm 2), Z.div_div by lia. reflexivity.
    + rewrite Hk, Z.rem_mul_r by lia.
      pose proof (Z.mod_pos_bound m (2 ^ (Zpos k - 1)) Hpow) as Hlo.
      rewrite (Zmod_odd (m / 2 ^ (Zpos k - 1))).
      destruct (Z.odd (m / 2 ^ (Zpos k - 1))); simpl.
      * symmetry. apply negb_true_iff. apply Z.eqb_neq. lia.
      * rewrite Z.mul_0_r, Z.add_0_r. reflexivity.
Qed.

(** The mantissa kept after [k] shifts and rounding to nearest even: it is
    the quotient or its successor, within half a unit of the exact
    quotient, even on a tie, and the quotient itself when nothing was
    shifted out. *)
Lemma round_shifted_spec (m : Z) (k : positive) :
  0 <= m ->
  let rec := Pos.iter shr_1 (Build_shr_record m false false) k in
  let q' := round_nearest_even (shr_m rec) (loc_of_shr_record rec) in
  (q' = m / 2 ^ Zpos k \/ q' = m / 2 ^ Zpos k + 1) /\
  2 * Z.abs (q' * 2 ^ Zpos k - m) <= 2 ^ Zpos k /\
  (2 * Z.abs (q' * 2 ^ Zpos k - m) = 2 ^ Zpos k -> Z.even q' = true) /\
  (m mod 2 ^ Zpos k = 0 -> q' = m / 2 ^ Zpos k).
Proof.
  intros Hm. rewrite (shr_iter_spec m k Hm). cbv zeta. simpl shr_m.
  assert (Hpow : 0 < 2 ^ (Zpos k - 1)) by (apply Z.pow_pos_nonneg; lia).
  assert (Hk : 2 ^ Zpos k = 2 ^ (Zpos k - 1) * 2).
  { replace (Zpos k) with (Z.succ (Zpos k - 1)) at 1 by lia.
    rewrite Z.pow_succ_r by lia. ring. }
  pose proof (Z.mod_pos_bound m (2 ^ (Zpos k - 1)) Hpow) as Hlo.
  assert (Hrem : m mod 2 ^ Zpos k =
                 m mod 2 ^ (Zpos k - 1)
                 + 2 ^ (Zpos k - 1) * (if Z.odd (m / 2 ^ (Zpos k - 1)) then 1 else 0)).
  { rewrite Hk, Z.rem_mul_r by lia. rewrite Zmod_odd. reflexivity. }
  assert (Hdiv : m = m / 2 ^ Zpos k * 2 ^ Zpos k + m mod 2 ^ Zpos k).
  { rewrite Z.mul_comm. apply Z.div_mod. lia. }
  rewrite Hk in *. clear Hk.
  remember (2 ^ (Zpos k - 1)) as N eqn:HeqN.
  remember (m mod N) as lo eqn:Heqlo.
  remember (Z.odd (m / N)) as bit eqn:Heqbit.
  remember (m / (N * 2)) as q eqn:Heqq.
  remember (m mod (N * 2)) as rem eqn:Heqrem.
  clear HeqN Heqlo Heqbit Heqq Heqrem.
  destruct bit; destruct (Z.eqb_spec lo 0) as [Hz|Hz]; simpl;
    try (destruct (Z.even q) eqn:He); repeat split; intros; try lia; auto.
  - rewrite Z.even_add, He. reflexivity.
Qed.

Lemma digits2_pos_unique (p : positive) (n : Z) :
  2 ^ (n - 1) <= Zpos p < 2 ^ n -> Zpos (digits2_pos p) = n.
Proof.
  intros [Hlo Hhi]. pose proof (digits2_pos_bounds p) as [Dlo Dhi].
  destruct (Z.lt_trichotomy (Zpos (digits2_pos p)) n) as [Hlt|[Heq|Hgt]];
    [|exact Heq|].
  - assert (2 ^ Zpos (digits2_pos p) <= 2 ^ (n - 1))
      by (apply Z.pow_le_mono_r; lia). lia.
  - assert (0 < n).
    { destruct (Z.le_gt_cases n 0) as [Hn|Hn]; [|exact Hn].
      assert (2 ^ n <= 2 ^ 0) by (apply Z.pow_le_mono_r; lia).
      change (2 ^ 0) with 1 in *. lia. }
    assert (2 ^ n <= 2 ^ (Zpos (digits2_pos p) - 1))
      by (apply Z.pow_le_mono_r; lia). lia.
Qed.

(** The conversion of a magnitude of more than 53 bits: the mantissa is
    shifted right by [k], the excess over 53 bits, and rounded to nearest
    even; the value is a multiple [q' * 2^k]. *)
Lemma binary_round_large (s : bool) (m k : positive) :
  Zpos (digits2_pos m) = 53 + Zpos k -> Zpos k <= 900 ->
  exists mz ez q',
    binary_round Double.prec Double.emax s m 0 = S754_finite s mz ez /\
    0 <= ez /\ Zpos mz * 2 ^ ez = q' * 2 ^ Zpos k /\
    2 ^ 52 <= q' <= 2 ^ 53 /\
    2 * Z.abs (q' * 2 ^ Zpos k - Zpos m) <= 2 ^ Zpos k /\
    (2 * Z.abs (q' * 2 ^ Zpos k - Zpos m) = 2 ^ Zpos k -> Z.even q' = true) /\
    (Zpos m mod 2 ^ Zpos k = 0 -> q' * 2 ^ Zpos k = Zpos m).
Proof.
  intros Hd Hk.
  pose proof (digits2_pos_bounds m) as [Dlo Dhi]. rewrite Hd in Dlo, Dhi.
  assert (Hpk : 0 < 2 ^ Zpos k) by (apply Z.pow_pos_nonneg; lia).
  assert (Hq : 2 ^ 52 <= Zpos m / 2 ^ Zpos k < 2 ^ 53).
  { replace (53 + Zpos k - 1) with (52 + Zpos k) in Dlo by lia.
    rewrite Z.pow_add_r in Dlo, Dhi by lia. split.
    - apply Z.div_le_lower_bound; lia.
    - apply Z.div_lt_upper_bound; lia. }
  destruct (round_shifted_spec (Zpos m) k) as (Hq' & Hnear & Htie & Hexact);
    [lia|].
  set (rec := Pos.iter shr_1 (Build_shr_record (Zpos m) false false) k) in *.
  set (q' := round_nearest_even (shr_m rec) (loc_of_shr_record rec)) in *.
  assert (Hfexp : fexp Double.prec Double.emax (Zpos (digits2_pos m) + 0) - 0
                  = Zpos k).
  { unfold fexp, emin, Double.prec, Double.emax. lia. }
  assert (Hfirst : shr_fexp Double.prec Double.emax (Zpos m) 0 loc_Exact
                   = (rec, Zpos k)).
  { unfold shr_fexp. simpl Zdigits2. rewrite Hfexp. unfold shr. simpl.
    rewrite iter_pos_iter. reflexivity. }
  assert (Hround : binary_round Double.prec Double.emax s m 0
                   = binary_round_aux Double.prec Double.emax s (Zpos m) 0 loc_Exact).
  { unfold binary_round, shl_align.
    replace (fexp Double.prec Double.emax (Zpos (digits2_pos m) + 0) - 0)
      with (Zpos k) by (symmetry; exact Hfexp).
    reflexivity. }
  rewrite Hround. unfold binary_round_aux. rewrite Hfirst.
  fold q'.
  assert (Hq'pos : 2 ^ 52 <= q' <= 2 ^ 53) by lia.
  destruct q' as [|qp|qp] eqn:Heqq'; [lia| |lia].
  destruct (Z.eq_dec (Zpos qp) (2 ^ 53)) as [Hmax|Hlt].
  - exists (2 ^ 52)%positive, (Zpos k + 1), (Zpos qp).
    assert (Hdq : Zpos (digits2_pos qp) = 54).
    { apply digits2_pos_unique. rewrite Hmax. change (54 - 1) with 53. lia. }
    assert (Hsecond : shr_fexp Double.prec Double.emax (Zpos qp) (Zpos k) loc_Exact
                      = (Build_shr_record (2 ^ 52) false false, Zpos k + 1)).
    { unfold shr_fexp. simpl Zdigits2. rewrite Hdq.
      replace (fexp Double.prec Double.emax (54 + Zpos k) - Zpos k) with 1
        by (unfold fexp, emin, Double.prec, Double.emax; lia).
      unfold shr, shr_record_of_loc.
      change (SpecFloat.iter_pos shr_1 1 (Build_shr_record (Zpos qp) false false))
        with (shr_1 (Build_shr_record (Zpos qp) false false)).
      rewrite shr_1_spec by lia. rewrite Hmax. reflexivity. }
    rewrite Hsecond. simpl shr_m.
    change (2 ^ 52) with (Zpos (2 ^ 52)) at 1. cbv iota beta.
    destruct (Z.leb_spec (Zpos k + 1) (Double.emax - Double.prec)) as [_|Hgt];
      [|unfold Double.emax, Double.prec in Hgt; lia].
    split; [reflexivity|]. split; [lia|]. split.
    { rewrite Hmax, Z.pow_add_r by lia.
      change (Zpos (2 ^ 52)) with (2 ^ 52). change (2 ^ 53) with (2 ^ 52 * 2 ^ 1).
      ring. }
    split; [lia|]. split; [exact Hnear|]. split; [exact Htie|].
    intros Hz. rewrite (Hexact Hz) in *. lia.
  - exists qp, (Zpos k), (Zpos qp).
    assert (Hdq : Zpos (digits2_pos qp) = 53).
    { apply digits2_pos_unique. change (53 - 1) with 52. lia. }
    assert (Hsecond : shr_fexp Double.prec Double.emax (Zpos qp) (Zpos k) loc_Exact
                      = (Build_shr_record (Zpos qp) false false, Zpos k)).
    { unfold shr_fexp. simpl Zdigits2. rewrite Hdq.
      replace (fexp Double.prec Double.emax (53 + Zpos k) - Zpos k) with 0
        by (unfold fexp, emin, Double.prec, Double.emax; lia).
      reflexivity. }
    rewrite Hsecond. simpl shr_m. cbv iota beta.
    destruct (Z.leb_spec (Zpos k) (Double.emax - Double.prec)) as [_|Hgt];
      [|unfold Double.emax, Double.prec in Hgt; lia].
    split; [reflexivity|]. split; [lia|]. split; [reflexivity|].
    split; [lia|]. split; [exact Hnear|]. split; [exact Htie|].
    intros Hz. rewrite (Hexact Hz).
    pose proof (Z.div_mod (Zpos m) (2 ^ Zpos k)). lia.
Qed.

Lemma log2_digits (m : positive) : Z.log2 (Zpos m) = Zpos (digits2_pos m) - 1.
Proof.
  pose proof (digits2_pos_bounds m) as [Dlo Dhi].
  apply Z.log2_unique; [lia|].
  replace (Z.succ (Zpos (digits2_pos m) - 1)) with (Zpos (digits2_pos m)) by lia.
  split; assumption.
Qed.

(** The conversion of a magnitude [m] with sign [s]: the result is the
    multiple of [2^k] nearest to [m], ties to the even multiple, where [k]
    is the excess of the length of [m] over 53 bits. *)
Lemma of_magnitude_nearest (s : bool) (m : positive) :
  Zpos m <= 2 ^ 63 ->
  let k := Z.max 0 (Z.log2 (Zpos m) - 52) in
  exists w,
    Double.represents (binary_round Double.prec Double.emax s m 0)
                      (if s then - w else w) /\
    0 <= w <= 2 ^ 53 * 2 ^ k /\ w mod 2 ^ k = 0 /\
    2 * Z.abs (w - Zpos m) <= 2 ^ k /\
    (2 * Z.abs (w - Zpos m) = 2 ^ k -> Z.even (w / 2 ^ k) = true) /\
    (Zpos m mod 2 ^ k = 0 -> w = Zpos m).
Proof.
  intros Hm. rewrite log2_digits. cbv zeta.
  pose proof (digits2_pos_bounds m) as [Dlo Dhi].
  destruct (Z.le_gt_cases (Zpos (digits2_pos m)) 53) as [Hd|Hd].
  - rewrite Z.max_l by lia. change (2 ^ 0) with 1.
    assert (Hsmall : Zpos m < 2 ^ 53).
    { assert (2 ^ Zpos (digits2_pos m) <= 2 ^ 53)
        by (apply Z.pow_le_mono_r; lia). lia. }
    exists (Zpos m).
    destruct (binary_round_small s m Hsmall) as (m' & e & Hr & He & Hv).
    rewrite Hr. split.
    + unfold Double.represents, Double.numerator, Double.denominator.
      rewrite (Z.max_r e 0), (Z.max_l (- e) 0) by lia. change (2 ^ 0) with 1.
      destruct s; [change (Zneg m') with (- Zpos m')|]; rewrite Hv; lia.
    + rewrite Z.mod_1_r, Z.sub_diag. simpl Z.abs.
      repeat split; try lia.
  - assert (Hdmax : Zpos (digits2_pos m) <= 64).
    { destruct (Z.le_gt_cases (Zpos (digits2_pos m)) 64) as [|Hgt];
        [assumption|].
      assert (2 ^ 64 <= 2 ^ (Zpos (digits2_pos m) - 1))
        by (apply Z.pow_le_mono_r; lia). lia. }
    destruct (Zpos (digits2_pos m) - 53) as [|k|k] eqn:Hk; try lia.
    replace (Zpos (digits2_pos m) - 1 - 52) with (Zpos k) by lia.
    rewrite Z.max_r by lia.
    destruct (binary_round_large s m k) as
      (mz & ez & q' & Hr & Hez & Hval & Hq' & Hnear & Htie & Hexact);
      [lia | lia |].
    assert (Hpk : 0 < 2 ^ Zpos k) by (apply Z.pow_pos_nonneg; lia).
    exists (q' * 2 ^ Zpos k). rewrite Hr. split.
    + unfold Double.represents, Double.numerator, Double.denominator.
      rewrite (Z.max_l ez 0), (Z.max_r (- ez) 0) by lia. change (2 ^ 0) with 1.
      destruct s; [change (Zneg mz) with (- Zpos mz)|]; lia.
    + split; [nia|]. split; [apply Z_mod_mult|]. split; [exact Hnear|].
      split; [|exact Hexact].
      rewrite Z_div_mult by lia. exact Htie.
Qed.

(** [static_cast<double>] of an [int64_t]: round to nearest, ties to even. *)
Lemma of_int64_nearest (i : Z) :
  Int64.in_range i ->
  let k := Z.max 0 (Z.log2 (Z.abs i) - 52) in
  exists v,
    Double.represents (Double.of_int64 i) v /\
    v mod 2 ^ k = 0 /\ Z.abs v <= 2 ^ 53 * 2 ^ k /\
    2 * Z.abs (v - i) <= 2 ^ k /\
    (2 * Z.abs (v - i) = 2 ^ k -> Z.even (v / 2 ^ k) = true) /\
    (i mod 2 ^ k = 0 -> v = i).
Proof.
  intros Hi. destruct i as [|m|m].
  - exists 0. cbv zeta. simpl. repeat split; try lia; try reflexivity.
  - destruct (of_magnitude_nearest false m) as (w & Hrep & Hw & Hmod & Hnear & Htie & Hex);
      [unfold Int64.in_range, Int64.min_signed, Int64.max_signed in Hi; lia|].
    cbv zeta. change (Z.abs (Zpos m)) with (Zpos m).
    exists w. unfold Double.of_int64, binary_normalize.
    repeat split; try assumption; try lia.
  - destruct (of_magnitude_nearest true m) as (w & Hrep & Hw & Hmod & Hnear & Htie & Hex);
      [unfold Int64.in_range, Int64.min_signed, Int64.max_signed in Hi; lia|].
    cbv zeta. change (Z.abs (Zneg m)) with (Zpos m).
    set (k := Z.max 0 (Z.log2 (Zpos m) - 52)) in *.
    assert (Hpk : 0 < 2 ^ k) by (apply Z.pow_pos_nonneg; lia).
    exists (- w). unfold Double.of_int64, binary_normalize.
    split; [exact Hrep|]. split.
    { apply Z_mod_zero_opp_full. exact Hmod. }
    split; [rewrite Z.abs_opp, Z.abs_eq by lia; lia|].
    assert (Habs : Z.abs (- w - Zneg m) = Z.abs (w - Zpos m)).
    { change (Zneg m) with (- Zpos m). lia. }
    rewrite Habs. split; [exact Hnear|]. split.
    + intros Hq. rewrite Z_div_zero_opp_full by exact Hmod.
      rewrite Z.even_opp. apply Htie. exact Hq.
    + intros Hz. change (Zneg m) with (- Zpos m) in *. rewrite Hex; [reflexivity|].
      apply Z_mod_zero_opp_full in Hz. rewrite Z.opp_involutive in Hz. exact Hz.
Qed.

(** C9, as the code has it. The conversion of an Int to Float is not exact
    on all of [int64_t]: [2^53 + 1] becomes the Float [2^53].  And not
    every Float payload has a truncation that is an Int: the Float [2^63]
    is finite, its integer part is [2^63], and no [int64_t] equals it. *)
Lemma numeric_coercions_limits :
  Int64.in_range (2 ^ 53 + 1) /\
  asFloat (VInt (2 ^ 53 + 1)) = S754_finite false (2 ^ 52) 1 /\
  Double.represents (asFloat (VInt (2 ^ 53 + 1))) (2 ^ 53) /\
  ~ Double.represents (asFloat (VInt (2 ^ 53 + 1))) (2 ^ 53 + 1) /\
  Double.numerator false (2 ^ 52) 11 ÷ Double.denominator 11 = 2 ^ 63 /\
  ~ Int64.in_range (2 ^ 63) /\
  asInt (VFloat (S754_finite false (2 ^ 52) 11)) <> 2 ^ 63.
Proof.
  split; [|split; [|split; [|split; [|split; [|split]]]]].
  - int64_bounds.
  - vm_compute. reflexivity.
  - vm_compute. reflexivity.
  - vm_compute. discriminate.
  - vm_compute. reflexivity.
  - int64_bounds.
  - vm_compute. discriminate.
Qed.

(** C9, amended. [asInt] and [asFloat] are total functions (they have no
    throwing outcome): [asInt] returns the payload of an Int, and for a
    finite Float payload the value truncated toward zero whenever that
    truncation is an [int64_t]; [asFloat] returns the payload of a Float,
    and converts an Int payload to the nearest Float, ties to even: with
    [k] the excess of the payload's length over 53 bits, the result is the
    multiple of [2^k] nearest to the payload (the even multiple on a tie),
    so the conversion is exact exactly for the payloads that are multiples
    of [2^k], among them all of magnitude at most [2^53]; on every
    non-numeric tag [asInt] is 0 and [asFloat] is 0.0. *)
Theorem numeric_coercions :
  (forall i, asInt (VInt i) = i) /\
  (forall s, asInt (VFloat (S754_zero s)) = 0) /\
  (forall s m e,
     Int64.in_range (Double.numerator s m e ÷ Double.denominator e) ->
     asInt (VFloat (S754_finite s m e))
     = Double.numerator s m e ÷ Double.denominator e) /\
  (forall d, asFloat (VFloat d) = d) /\
  (forall i, Z.abs i <= 2 ^ 53 -> Double.represents (asFloat (VInt i)) i) /\
  (forall i, Int64.in_range i ->
     let k := Z.max 0 (Z.log2 (Z.abs i) - 52) in
     exists v,
       Double.represents (asFloat (VInt i)) v /\
       v mod 2 ^ k = 0 /\ Z.abs v <= 2 ^ 53 * 2 ^ k /\
       2 * Z.abs (v - i) <= 2 ^ k /\
       (2 * Z.abs (v - i) = 2 ^ k -> Z.even (v / 2 ^ k) = true) /\
       (i mod 2 ^ k = 0 <-> v = i)) /\
  (forall v, isNumber v = false -> asInt v = 0 /\ asFloat v = S754_zero false).
Proof.
  split; [|split; [|split; [|split; [|split; [|split]]]]]; try reflexivity.
  - intros s m e. rewrite <- trunc_quot. intros [Hlo Hhi]. simpl.
    destruct (Z.leb_spec Int64.min_signed (Double.trunc s m e)); [|lia].
    destruct (Z.leb_spec (Double.trunc s m e) Int64.max_signed); [|lia].
    reflexivity.
  - intros i Hi. apply of_int64_exact. exact Hi.
  - intros i Hi. cbv zeta.
    destruct (of_int64_nearest i Hi) as (v & Hrep & Hmod & Hmag & Hnear & Htie & Hex).
    exists v. repeat split; try assumption.
    intros <-. exact Hmod.
  - intros v Hv. destruct v; try discriminate Hv; split; reflexivity.
Qed.

Lemma numeric_coercions_witness :
  asInt (VFloat (S754_finite true 7 (-1))) = -3 /\
  Double.represents (asFloat (VInt (- 2 ^ 53))) (- 2 ^ 53) /\
  (exists v, Double.represents (asFloat (VInt (2 ^ 60 + 1))) v /\
             2 * Z.abs (v - (2 ^ 60 + 1)) <= 2 ^ 8) /\
  asInt (VString "12") = 0.
Proof.
  destruct numeric_coercions as (_ & _ & Htr & _ & Hex & Hnear & Hnon).
  split; [|split; [|split]].
  - apply (Htr true 7%positive (-1)). vm_compute. split; discriminate.
  - apply (Hex (- 2 ^ 53)). vm_compute. discriminate.
  - destruct (Hnear (2 ^ 60 + 1)) as (v & Hrep & _ & _ & Hhalf & _);
      [int64_bounds|].
    exists v. split; [exact Hrep | exact Hhalf].
  - apply (Hnon (VString "12")). reflexivity.
Defined.

(** ** Equality *)

Lemma operator_eq_arrays (fuel : nat) (h : Heap) (pa pb : handle) :
  operator_eq fuel h (VArray pa) (VArray pb) =
    self_arr ← deref_array h pa;
    other_arr ← deref_array h pb;
    vector_eq (nested_eq fuel h) self_arr other_arr.
Proof. destruct fuel; reflexivity. Qed.

(** Unless both operands are arrays the result does not depend on the
    fuel. *)
Lemma operator_eq_scalar (fuel : nat) (h : Heap) (a b : Value) :
  isArray a && isArray b = false ->
  operator_eq fuel h a b = operator_eq 0 h a b.
Proof.
  intros Hab. destruct fuel; [reflexivity|].
  destruct a, b; try reflexivity; discriminate Hab.
Qed.

Lemma tags_differ_not_equal (fuel : nat) (h : Heap) (a b : Value) :
  getType a <> getType b -> operator_eq fuel h a b = Val false.
Proof.
  intros Hty. destruct fuel; destruct a, b; try reflexivity;
    exfalso; apply Hty; reflexivity.
Qed.

Lemma equal_range_mono (f g : Value -> Value -> Outcome bool) (xs ys : list Value) (r : bool) :
  (forall x y r', f x y = Val r' -> g x y = Val r') ->
  equal_range f xs ys = Val r -> equal_range g xs ys = Val r.
Proof.
  intros Hfg. revert ys. induction xs as [|x xs IH]; intros [|y ys]; simpl;
    try (intros H; exact H).
  destruct (f x y) as [b| | |] eqn:Hf; simpl; try discriminate.
  rewrite (Hfg x y b Hf). simpl. destruct b; [apply IH | intros H; exact H].
Qed.

Lemma vector_eq_mono (f g : Value -> Value -> Outcome bool) (xs ys : list Value) (r : bool) :
  (forall x y r', f x y = Val r' -> g x y = Val r') ->
  vector_eq f xs ys = Val r -> vector_eq g xs ys = Val r.
Proof.
  intros Hfg. unfold vector_eq.
  destruct (Nat.eqb (length xs) (length ys)); [|intros H; exact H].
  apply equal_range_mono. exact Hfg.
Qed.

(** More fuel does not change a result. *)
Lemma operator_eq_mono (n : nat) (h : Heap) :
  forall a b r, operator_eq n h a b = Val r -> operator_eq (S n) h a b = Val r.
Proof.
  induction n as [|n IH]; intros a b r Hr.
  - destruct (isArray a && isArray b) eqn:Hab.
    + destruct a, b; try discriminate Hab.
      rewrite operator_eq_arrays in *.
      destruct (deref_array h p) as [xs| | |]; try discriminate Hr.
      destruct (deref_array h p0) as [ys| | |]; try discriminate Hr.
      simpl in *. revert Hr. apply vector_eq_mono.
      intros x y r' Hf. discriminate Hf.
    + rewrite operator_eq_scalar by exact Hab. exact Hr.
  - destruct (isArray a && isArray b) eqn:Hab.
    + destruct a, b; try discriminate Hab.
      rewrite operator_eq_arrays in *.
      destruct (deref_array h p) as [xs| | |]; try discriminate Hr.
      destruct (deref_array h p0) as [ys| | |]; try discriminate Hr.
      simpl in *. revert Hr. apply vector_eq_mono. exact IH.
    + rewrite operator_eq_scalar by exact Hab.
      rewrite operator_eq_scalar in Hr by exact Hab. exact Hr.
Qed.

Lemma operator_eq_mono_le (n m : nat) (h : Heap) (a b : Value) (r : bool) :
  (n <= m)%nat -> operator_eq n h a b = Val r -> operator_eq m h a b = Val r.
Proof.
  intros Hle Hr. induction Hle as [|m Hle IH]; [exact Hr|].
  apply operator_eq_mono. exact IH.
Qed.

(** A comparison has at most one result. *)
Lemma operator_eq_deterministic (n m : nat) (h : Heap) (a b : Value) (r r' : bool) :
  operator_eq n h a b = Val r -> operator_eq m h a b = Val r' -> r = r'.
Proof.
  intros Hn Hm.
  apply (operator_eq_mono_le n (Nat.max n m)) in Hn; [|lia].
  apply (operator_eq_mono_le m (Nat.max n m)) in Hm; [|lia].
  congruence.
Qed.

Lemma equal_range_total (f : Value -> Value -> Outcome bool) (xs ys : list Value) :
  (forall x y, In x xs -> In y ys -> exists r, f x y = Val r) ->
  exists r, equal_range f xs ys = Val r.
Proof.
  revert ys. induction xs as [|x xs IH]; intros [|y ys] Hf; simpl;
    try (eexists; reflexivity).
  destruct (Hf x y) as [b Hb]; [left; reflexivity | left; reflexivity |].
  rewrite Hb. simpl. destruct b; [|eexists; reflexivity].
  apply IH. intros x' y' Hx Hy. apply Hf; right; assumption.
Qed.

(** On well nested operands the comparison returns a boolean. *)
Lemma operator_eq_total (n : nat) (h : Heap) :
  forall a b, well_nested n h a = true -> well_nested n h b = true ->
  exists r, operator_eq n h a b = Val r.
Proof.
  induction n as [|n IH]; intros a b Ha Hb.
  - destruct a, b; try discriminate Ha; try discriminate Hb;
      eexists; reflexivity.
  - destruct (isArray a && isArray b) eqn:Hab.
    + destruct a as [| | | | | |pa], b as [| | | | | |pb]; try discriminate Hab.
      simpl in Ha, Hb. rewrite operator_eq_arrays. unfold deref_array.
      destruct (arrays h !! pa) as [xs|]; [|discriminate Ha].
      destruct (arrays h !! pb) as [ys|]; [|discriminate Hb].
      simpl. unfold vector_eq.
      destruct (Nat.eqb (length xs) (length ys)); [|eexists; reflexivity].
      apply equal_range_total. intros x y Hx Hy. apply IH.
      * rewrite forallb_forall in Ha. apply Ha. exact Hx.
      * rewrite forallb_forall in Hb. apply Hb. exact Hy.
    + rewrite operator_eq_scalar by exact Hab.
      destruct a, b; try discriminate Hab; eexists; reflexivity.
Qed.

Lemma equal_range_refl (f : Value -> Value -> Outcome bool) (xs : list Value) :
  (forall x, In x xs -> f x x = Val true) -> equal_range f xs xs = Val true.
Proof.
  induction xs as [|x xs IH]; intros Hf; simpl; [reflexivity|].
  rewrite (Hf x) by (left; reflexivity). simpl.
  apply IH. intros x' Hx. apply Hf. right. exact Hx.
Qed.

Lemma double_eqb_refl (d : double) :
  Double.is_nan d = false -> Double.eqb d d = true.
Proof.
  unfold Double.eqb, SFeqb. destruct d as [s|s| |s m e]; simpl; intros H;
    try reflexivity; try discriminate H.
  - destruct s; reflexivity.
  - assert (Hm : Pos.compare_cont Eq m m = Eq) by apply Pos.compare_refl.
    destruct s; rewrite Z.compare_refl, Hm; reflexivity.
Qed.

Lemma operator_eq_refl (n : nat) (h : Heap) :
  forall v, no_struct_no_nan n h v = true -> operator_eq n h v v = Val true.
Proof.
  induction n as [|n IH]; intros v Hv.
  - destruct v; try discriminate Hv; simpl in *.
    + reflexivity.
    + rewrite Bool.eqb_reflx. reflexivity.
    + rewrite Z.eqb_refl. reflexivity.
    + rewrite double_eqb_refl; [reflexivity|].
      apply negb_true_iff. exact Hv.
    + unfold asString, asString_with. simpl. rewrite String.eqb_refl.
      reflexivity.
  - destruct v as [|b|i|d|s|p|p]; try discriminate Hv.
    + reflexivity.
    + simpl. rewrite Bool.eqb_reflx. reflexivity.
    + simpl. rewrite Z.eqb_refl. reflexivity.
    + simpl. rewrite double_eqb_refl; [reflexivity|].
      apply negb_true_iff. exact Hv.
    + simpl. unfold asString, asString_with. simpl. rewrite String.eqb_refl.
      reflexivity.
    + simpl in Hv. rewrite operator_eq_arrays. unfold deref_array.
      destruct (arrays h !! p) as [xs|]; [|discriminate Hv].
      simpl. unfold vector_eq. rewrite Nat.eqb_refl.
      apply equal_range_refl. intros x Hx. apply IH.
      rewrite forallb_forall in Hv. apply Hv. exact Hx.
Qed.

Lemma equal_range_true_iff (f : Value -> Value -> Outcome bool) (xs ys : list Value) :
  length xs = length ys ->
  equal_range f xs ys = Val true <->
  (forall (i : nat) x y, xs !! i = Some x -> ys !! i = Some y -> f x y = Val true).
Proof.
  revert ys. induction xs as [|x xs IH]; intros [|y ys] Hlen;
    try discriminate Hlen; simpl.
  - split; [|reflexivity]. intros _ i x y Hx. discriminate Hx.
  - injection Hlen as Hlen. split.
    + intros Heq. destruct (f x y) as [b| | |] eqn:Hf; try discriminate Heq.
      simpl in Heq. destruct b; [|discriminate Heq].
      intros [|i] x' y' Hx Hy; simpl in Hx, Hy.
      * congruence.
      * apply (proj1 (IH ys Hlen) Heq i); assumption.
    + intros Hall. rewrite (Hall 0%nat x y) by reflexivity. simpl.
      apply IH; [exact Hlen|]. intros i x' y' Hx Hy.
      apply (Hall (S i)); assumption.
Qed.

Lemma vector_eq_true_iff (f : Value -> Value -> Outcome bool) (xs ys : list Value) :
  vector_eq f xs ys = Val true <->
  length xs = length ys /\
  (forall (i : nat) x y, xs !! i = Some x -> ys !! i = Some y -> f x y = Val true).
Proof.
  unfold vector_eq. destruct (Nat.eqb_spec (length xs) (length ys)) as [Hlen|Hlen].
  - rewrite (equal_range_true_iff f xs ys Hlen). tauto.
  - split; [discriminate | tauto].
Qed.

(** Finitely many comparisons that succeed do so at a common fuel. *)
Lemma common_fuel (h : Heap) (xs ys : list Value) :
  (forall (i : nat) x y, xs !! i = Some x -> ys !! i = Some y -> Equal h x y) ->
  exists n, forall (i : nat) x y,
    xs !! i = Some x -> ys !! i = Some y -> operator_eq n h x y = Val true.
Proof.
  revert ys. induction xs as [|x xs IH]; intros ys Hall.
  - exists 0%nat. intros i x y Hx. discriminate Hx.
  - destruct ys as [|y ys].
    + exists 0%nat. intros i x' y' _ Hy. discriminate Hy.
    + destruct (Hall 0%nat x y eq_refl eq_refl) as [n0 Hn0].
      destruct (IH ys) as [n Hn].
      { intros i x' y' Hx Hy. apply (Hall (S i)); assumption. }
      exists (Nat.max n0 n). intros [|i] x' y' Hx Hy; simpl in Hx, Hy.
      * injection Hx as <-. injection Hy as <-.
        apply (operator_eq_mono_le n0); [lia | exact Hn0].
      * apply (operator_eq_mono_le n); [lia|]. apply (Hn i); assumption.
Qed.

Lemma array_equal_iff (h : Heap) (pa pb : handle) (xs ys : list Value) :
  arrays h !! pa = Some xs -> arrays h !! pb = Some ys ->
  Equal h (VArray pa) (VArray pb) <->
  length xs = length ys /\
  (forall (i : nat) x y, xs !! i = Some x -> ys !! i = Some y -> Equal h x y).
Proof.
  intros Ha Hb. split.
  - intros [fuel Heq]. rewrite operator_eq_arrays in Heq.
    unfold deref_array in Heq. rewrite Ha, Hb in Heq. simpl in Heq.
    apply vector_eq_true_iff in Heq as [Hlen Hall]. split; [exact Hlen|].
    intros i x y Hx Hy. specialize (Hall i x y Hx Hy).
    destruct fuel as [|n]; [discriminate Hall|]. exists n. exact Hall.
  - intros [Hlen Hall]. destruct (common_fuel h xs ys Hall) as [n Hn].
    exists (S n). rewrite operator_eq_arrays. unfold deref_array.
    rewrite Ha, Hb. simpl. apply vector_eq_true_iff. split; assumption.
Qed.

(** The comparison of an array that holds a handle to itself with itself
    has no result at any depth of recursion. *)
Lemma self_containing_no_result (fuel : nat) :
  operator_eq fuel self_containing (VArray 1) (VArray 1) = OutOfFuel.
Proof.
  induction fuel as [|n IH]; [reflexivity|].
  rewrite operator_eq_arrays.
  change (deref_array self_containing 1) with (Val [VArray 1%positive]).
  simpl. unfold vector_eq. simpl. rewrite IH. reflexivity.
Qed.

(** C1, as the code has it. A struct value does not compare equal to
    itself, although both operands hold the same handle; neither does a
    NaN; and comparing an array that contains itself with itself returns
    nothing. *)
Lemma struct_not_equal_to_itself :
  fst (createStruct "T" empty_heap) = VStruct 1 /\
  operator_eq 1 (snd (createStruct "T" empty_heap)) (VStruct 1) (VStruct 1)
  = Val false /\
  operator_eq 1 empty_heap (VFloat S754_nan) (VFloat S754_nan) = Val false /\
  (forall fuel,
     operator_eq fuel self_containing (VArray 1) (VArray 1) <> Val true).
Proof.
  split; [|split; [|split]]; try reflexivity.
  intros fuel. rewrite self_containing_no_result. discriminate.
Qed.

(** C1, amended. [operator==] is reflexive on every value that is not and
    does not contain (through well nested arrays) a struct value or a NaN:
    for such a value [v == v] returns true; the comparison of two struct
    values returns false for all handles, identical or not. *)
Theorem equality_reflexive_without_structs :
  (forall n h v, no_struct_no_nan n h v = true ->
     operator_eq n h v v = Val true) /\
  (forall fuel h p q, operator_eq fuel h (VStruct p) (VStruct q) = Val false).
Proof.
  split.
  - intros n h v Hv. apply operator_eq_refl. exact Hv.
  - intros fuel h p q. destruct fuel; reflexivity.
Qed.

Lemma equality_reflexive_without_structs_witness :
  operator_eq 1 (snd sample_arrays) (VArray 1) (VArray 1) = Val true.
Proof.
  apply (proj1 equality_reflexive_without_structs 1%nat (snd sample_arrays)
           (VArray 1)).
  vm_compute. reflexivity.
Defined.

(** C7, as the code has it. The comparison of an array that holds a handle
    to itself returns at no depth of recursion, and the comparison of an
    array value whose handle is empty dereferences it. *)
Lemma array_comparison_without_result :
  (forall fuel,
     operator_eq fuel self_containing (VArray 1) (VArray 1) = OutOfFuel) /\
  operator_eq 1 empty_heap (VArray 1) (VArray 1) = Undefined.
Proof.
  split; [|reflexivity]. intros fuel. apply self_containing_no_result.
Qed.

(** C7, amended. Equality of arrays is deep and order-sensitive:
    operands of different tags compare unequal; on well nested operands
    (array handles bound, nesting finite) the comparison returns a boolean
    and the same one at every larger fuel; a returned boolean is true
    exactly when the operands are [Equal]; two live arrays are [Equal] if
    and only if they have the same length and the elements at every index
    are [Equal]; and [[1,2] == [1,2]] is true, [[1,2] == [2,1]] is false,
    [[] == []] is true. *)
Theorem array_equality_deep :
  (forall fuel h a b, getType a <> getType b ->
     operator_eq fuel h a b = Val false) /\
  (forall n h a b, well_nested n h a = true -> well_nested n h b = true ->
     exists r, forall m, (n <= m)%nat -> operator_eq m h a b = Val r) /\
  (forall fuel h a b r, operator_eq fuel h a b = Val r ->
     (r = true <-> Equal h a b)) /\
  (forall h pa pb xs ys,
     arrays h !! pa = Some xs -> arrays h !! pb = Some ys ->
     (Equal h (VArray pa) (VArray pb) <->
      length xs = length ys /\
      (forall (i : nat) x y,
         xs !! i = Some x -> ys !! i = Some y -> Equal h x y))) /\
  (fst sample_arrays = [VArray 1; VArray 2; VArray 3; VArray 4; VArray 5] /\
   operator_eq 1 (snd sample_arrays) (VArray 1) (VArray 2) = Val true /\
   operator_eq 1 (snd sample_arrays) (VArray 1) (VArray 3) = Val false /\
   operator_eq 1 (snd sample_arrays) (VArray 4) (VArray 5) = Val true).
Proof.
  split; [|split; [|split; [|split]]].
  - intros fuel h a b Hty. apply tags_differ_not_equal. exact Hty.
  - intros n h a b Ha Hb.
    destruct (operator_eq_total n h a b Ha Hb) as [r Hr].
    exists r. intros m Hm. apply (operator_eq_mono_le n); assumption.
  - intros fuel h a b r Hr. split.
    + intros ->. exists fuel. exact Hr.
    + intros [m Hm]. apply (operator_eq_deterministic fuel m h a b); assumption.
  - intros h pa pb xs ys Ha Hb. apply array_equal_iff; assumption.
  - repeat split; vm_compute; reflexivity.
Qed.

Lemma array_equality_deep_witness :
  (exists r, forall m, (1 <= m)%nat ->
     operator_eq m (snd sample_arrays) (VArray 1) (VArray 3) = Val r) /\
  (Equal (snd sample_arrays) (VArray 1) (VArray 2) <->
   length [VInt 1; VInt 2] = length [VInt 1; VInt 2] /\
   (forall (i : nat) x y,
      [VInt 1; VInt 2] !! i = Some x -> [VInt 1; VInt 2] !! i = Some y ->
      Equal (snd sample_arrays) x y)).
Proof.
  destruct array_equality_deep as (_ & Htot & _ & Hdeep & _).
  split.
  - apply (Htot 1%nat (snd sample_arrays) (VArray 1) (VArray 3)); reflexivity.
  - apply (Hdeep (snd sample_arrays) 1%positive 2%positive); reflexivity.
Defined.

(** ** Aliasing of struct instances *)

(** A field written through one struct value is read back through every
    value that holds the same handle. *)
Lemma setField_visible_through_alias (h h' : Heap) (p : handle) (name : string) (x : Value) :
  setField h (VStruct p) name x = Val h' ->
  getField h' (VStruct p) name = Val x /\
  hasField h' (VStruct p) name = Val true.
Proof.
  unfold setField, getField, hasField, deref_struct. simpl.
  destruct (structs h !! p) as [s|] eqn:Hs; [|discriminate].
  simpl. intros [= <-]. simpl. rewrite lookup_insert_eq. simpl.
  rewrite lookup_insert_eq. split; reflexivity.
Qed.

(** ** The struct store *)

(** X1. On a struct value whose instance is live [setField] succeeds, and
    the value written is what [getField] then returns for that name through
    the same handle, with [hasField] true. *)
Theorem setField_getField_roundtrip (h : Heap) (p : handle) (s : StructInstance)
    (name : string) (x : Value) :
  structs h !! p = Some s ->
  exists h', setField h (VStruct p) name x = Val h' /\
             getField h' (VStruct p) name = Val x /\
             hasField h' (VStruct p) name = Val true.
Proof.
  intros Hs. unfold setField, deref_struct. simpl. rewrite Hs. simpl.
  eexists. split; [reflexivity|].
  unfold getField, hasField, deref_struct. simpl.
  rewrite !lookup_insert_eq. simpl. rewrite !lookup_insert_eq.
  split; reflexivity.
Qed.

Lemma setField_getField_roundtrip_witness :
  exists h', setField (snd (createStruct "T" empty_heap)) (VStruct 1) "x" (VInt 5)
             = Val h' /\
             getField h' (VStruct 1) "x" = Val (VInt 5) /\
             hasField h' (VStruct 1) "x" = Val true.
Proof.
  apply (setField_getField_roundtrip (snd (createStruct "T" empty_heap)) 1%positive
           (mkStruct "T" ∅) "x" (VInt 5)).
  reflexivity.
Defined.

(** X2. [setField] changes one field of one instance: every other field
    of that instance and every field of every other instance reads as
    before, no instance changes its type name, and the arrays are
    untouched. *)
Theorem setField_frame (h h' : Heap) (p : handle) (name : string) (x : Value) :
  setField h (VStruct p) name x = Val h' ->
  arrays h' = arrays h /\
  (forall q name', (q, name') <> (p, name) ->
     getField h' (VStruct q) name' = getField h (VStruct q) name' /\
     hasField h' (VStruct q) name' = hasField h (VStruct q) name') /\
  (forall q, structName <$> (structs h' !! q) = structName <$> (structs h !! q)).
Proof.
  unfold setField, deref_struct. simpl.
  destruct (structs h !! p) as [s|] eqn:Hs; [|discriminate].
  simpl. intros [= <-]. split; [reflexivity|]. split.
  - intros q name' Hne. unfold getField, hasField, deref_struct. simpl.
    destruct (decide (q = p)) as [->|Hq].
    + rewrite lookup_insert_eq, Hs. simpl.
      rewrite lookup_insert_ne by congruence. split; reflexivity.
    + rewrite lookup_insert_ne by congruence. split; reflexivity.
  - intros q. simpl. destruct (decide (q = p)) as [->|Hq].
    + rewrite lookup_insert_eq, Hs. reflexivity.
    + rewrite lookup_insert_ne by congruence. reflexivity.
Qed.

Lemma setField_frame_witness :
  match setField (snd (createStruct "T" empty_heap)) (VStruct 1) "x" (VInt 5) with
  | Val h' =>
      getField h' (VStruct 1) "y"
      = getField (snd (createStruct "T" empty_heap)) (VStruct 1) "y"
  | _ => False
  end.
Proof.
  destruct (setField (snd (createStruct "T" empty_heap)) (VStruct 1) "x" (VInt 5))
    as [h'| | |] eqn:Hset; try (vm_compute in Hset; discriminate Hset).
  apply (setField_frame (snd (createStruct "T" empty_heap)) h' 1%positive "x"
           (VInt 5) Hset).
  discriminate.
Defined.

(** X3. Writes to one field overwrite: two [setField]s of the same name
    leave the store that the second alone would leave.  Writes to
    different names commute, with the same outcome (store or failure) in
    either order. *)
Theorem setField_last_write_wins :
  (forall h h1 h2 v name x y,
     setField h v name x = Val h1 -> setField h1 v name y = Val h2 ->
     setField h v name y = Val h2) /\
  (forall h v n1 n2 x y, n1 <> n2 ->
     (h1 ← setField h v n1 x; setField h1 v n2 y)
     = (h1 ← setField h v n2 y; setField h1 v n1 x)).
Proof.
  split.
  - intros h h1 h2 v name x y. unfold setField, deref_struct.
    destruct v as [| | | | |p|]; try discriminate. simpl.
    destruct (structs h !! p) as [s|] eqn:Hs; [|discriminate].
    simpl. intros [= <-]. simpl. rewrite lookup_insert_eq. simpl.
    intros [= <-]. rewrite !insert_insert_eq. reflexivity.
  - intros h v n1 n2 x y Hne. unfold setField, deref_struct.
    destruct v as [| | | | |p|]; try reflexivity. simpl.
    destruct (structs h !! p) as [s|] eqn:Hs; [|reflexivity].
    simpl. rewrite !lookup_insert_eq. simpl. rewrite !insert_insert_eq.
    rewrite (insert_insert_ne (fields s) n1 n2) by exact Hne. reflexivity.
Qed.

Lemma setField_last_write_wins_witness :
  (h1 ← setField (snd (createStruct "T" empty_heap)) (VStruct 1) "x" (VInt 1);
   setField h1 (VStruct 1) "y" (VInt 2))
  = (h1 ← setField (snd (createStruct "T" empty_heap)) (VStruct 1) "y" (VInt 2);
     setField h1 (VStruct 1) "x" (VInt 1)).
Proof.
  apply (proj2 setField_last_write_wins (snd (createStruct "T" empty_heap))
           (VStruct 1) "x" "y" (VInt 1) (VInt 2)).
  discriminate.
Defined.

(** X4. [createStruct] returns a handle that no live instance has: the new
    struct has no field ([getField] is Null and [hasField] false for every
    name), every struct that was live is another value and reads as before,
    and the arrays are untouched. *)
Theorem createStruct_isolated (name : string) (h : Heap) :
  (forall fld,
     getField (snd (createStruct name h)) (fst (createStruct name h)) fld
     = Val VNull /\
     hasField (snd (createStruct name h)) (fst (createStruct name h)) fld
     = Val false) /\
  (forall q fld, is_Some (structs h !! q) ->
     VStruct q <> fst (createStruct name h) /\
     getField (snd (createStruct name h)) (VStruct q) fld
     = getField h (VStruct q) fld /\
     hasField (snd (createStruct name h)) (VStruct q) fld
     = hasField h (VStruct q) fld) /\
  arrays (snd (createStruct name h)) = arrays h.
Proof.
  destruct (createStruct_fresh name h) as (p & Hp & Hfresh & Hnew & Harr).
  assert (Hother : forall q, q <> p ->
            structs (snd (createStruct name h)) !! q = structs h !! q).
  { intros q Hq. unfold createStruct in *. simpl in *. injection Hp as <-.
    apply lookup_insert_ne. congruence. }
  rewrite Hp. remember (snd (createStruct name h)) as h' eqn:Hh'.
  clear Hh' Hp. split; [|split; [|exact Harr]].
  - intros fld. unfold getField, hasField, deref_struct. simpl.
    rewrite Hnew. simpl. rewrite lookup_empty. split; reflexivity.
  - intros q fld [s Hs].
    assert (Hq : q <> p) by (intros ->; congruence).
    split; [congruence|].
    unfold getField, hasField, deref_struct. simpl.
    rewrite (Hother q Hq). split; reflexivity.
Qed.

Lemma createStruct_isolated_witness :
  VStruct 1 <> fst (createStruct "U" (snd (createStruct "T" empty_heap))) /\
  getField (snd (createStruct "U" (snd (createStruct "T" empty_heap)))) (VStruct 1) "x"
  = getField (snd (createStruct "T" empty_heap)) (VStruct 1) "x" /\
  hasField (snd (createStruct "U" (snd (createStruct "T" empty_heap)))) (VStruct 1) "x"
  = hasField (snd (createStruct "T" empty_heap)) (VStruct 1) "x".
Proof.
  apply (proj1 (proj2 (createStruct_isolated "U" (snd (createStruct "T" empty_heap))))
           1%positive "x").
  vm_compute. eexists. reflexivity.
Defined.

(** ** Equality as a partial equivalence *)

Lemma SFcompare_antisym (x y : double) :
  SFcompare y x = CompOpp <$> SFcompare x y.
Proof.
  destruct x as [s1|s1| |s1 m1 e1], y as [s2|s2| |s2 m2 e2]; simpl;
    try reflexivity; try (destruct s1; reflexivity);
    try (destruct s2; reflexivity); try (destruct s1, s2; reflexivity).
  destruct s1, s2; simpl; try reflexivity;
    rewrite (Z.compare_antisym e1 e2); destruct (e1 ?= e2); simpl;
    try reflexivity.
  - f_equal. pose proof (Pos.compare_cont_antisym m1 m2 Eq) as H.
    simpl in H. rewrite <- H.
    destruct (Pos.compare_cont Eq m1 m2); reflexivity.
  - f_equal. pose proof (Pos.compare_cont_antisym m1 m2 Eq) as H.
    simpl in H. rewrite <- H. reflexivity.
Qed.

Lemma double_eqb_sym (x y : double) : Double.eqb x y = Double.eqb y x.
Proof.
  unfold Double.eqb, SFeqb. rewrite (SFcompare_antisym x y).
  destruct (SFcompare x y) as [[| |]|]; reflexivity.
Qed.

Lemma double_eqb_true (x y : double) :
  Double.eqb x y = true ->
  (exists s1 s2, x = S754_zero s1 /\ y = S754_zero s2) \/
  (x = y /\ Double.is_nan x = false).
Proof.
  unfold Double.eqb, SFeqb.
  destruct x as [s1|s1| |s1 m1 e1], y as [s2|s2| |s2 m2 e2]; simpl;
    try discriminate; try (destruct s1; discriminate);
    try (destruct s2; discriminate).
  - intros _. left. eauto.
  - destruct s1, s2; try discriminate; intros _; right; split; reflexivity.
  - destruct s1, s2; try discriminate;
      destruct (e1 ?= e2) eqn:He; try discriminate;
      apply Z.compare_eq in He; subst e2;
      change (Pos.compare_cont Eq m1 m2) with (Pos.compare m1 m2);
      destruct (Pos.compare m1 m2) eqn:Hm; try discriminate;
      apply Pos.compare_eq in Hm; subst m2; intros _; right; split; reflexivity.
Qed.

Lemma double_eqb_trans (x y z : double) :
  Double.eqb x y = true -> Double.eqb y z = true -> Double.eqb x z = true.
Proof.
  intros Hxy Hyz.
  destruct (double_eqb_true x y Hxy) as [(s1 & s2 & -> & ->)|[-> _]];
    [|exact Hyz].
  destruct (double_eqb_true _ z Hyz) as [(s3 & s4 & _ & ->)|[<- _]];
    destruct s1; try destruct s4; try destruct s2; reflexivity.
Qed.

Lemma equal_range_sym (f g : Value -> Value -> Outcome bool) (xs ys : list Value) :
  (forall x y, f x y = g y x) ->
  equal_range f xs ys = equal_range g ys xs.
Proof.
  intros Hfg. revert ys. induction xs as [|x xs IH]; intros [|y ys]; simpl;
    try reflexivity.
  rewrite (Hfg x y). destruct (g y x) as [[|]| | |]; simpl;
    try reflexivity. apply IH.
Qed.

(** X5. [operator==] is symmetric: [a == b] and [b == a] have the same
    outcome, in every store and at every fuel, failures included. *)
Theorem operator_eq_symmetric (fuel : nat) (h : Heap) :
  forall a b, operator_eq fuel h a b = operator_eq fuel h b a.
Proof.
  assert (Hscalar : forall a b, isArray a && isArray b = false ->
            operator_eq 0 h a b = operator_eq 0 h b a).
  { intros a b Hab. destruct a, b; try discriminate Hab; try reflexivity; simpl.
    - f_equal. destruct b, b0; reflexivity.
    - rewrite Z.eqb_sym. reflexivity.
    - rewrite double_eqb_sym. reflexivity.
    - unfold asString, asString_with. simpl. rewrite String.eqb_sym. reflexivity. }
  assert (Harr : forall n, (forall x y, nested_eq n h x y = nested_eq n h y x) ->
            forall a b, operator_eq n h a b = operator_eq n h b a).
  { intros n Hn a b. destruct (isArray a && isArray b) eqn:Hab.
    - destruct a as [| | | | | |pa], b as [| | | | | |pb]; try discriminate Hab.
      rewrite !operator_eq_arrays. unfold deref_array.
      destruct (arrays h !! pa) as [xs|], (arrays h !! pb) as [ys|]; simpl;
        try reflexivity.
      unfold vector_eq. rewrite (Nat.eqb_sym (length ys)).
      destruct (Nat.eqb (length xs) (length ys)); [|reflexivity].
      apply equal_range_sym. exact Hn.
    - rewrite (operator_eq_scalar n h a b Hab).
      rewrite (operator_eq_scalar n h b a) by (rewrite andb_comm; exact Hab).
      apply Hscalar. exact Hab. }
  induction fuel as [|n IH]; apply Harr; simpl; [reflexivity | exact IH].
Qed.

(** Transitivity at a given fuel. *)
Lemma operator_eq_transitive_at (n : nat) (h : Heap) :
  forall a b c, operator_eq n h a b = Val true -> operator_eq n h b c = Val true ->
  operator_eq n h a c = Val true.
Proof.
  assert (Hscalar : forall a b c, isArray a = false ->
            operator_eq 0 h a b = Val true -> operator_eq 0 h b c = Val true ->
            operator_eq 0 h a c = Val true).
  { intros a b c Ha Hab Hbc.
    destruct a; try discriminate Ha; destruct b; try discriminate Hab;
      destruct c; try discriminate Hbc; simpl in *; try reflexivity.
    - injection Hab as Hab. injection Hbc as Hbc.
      apply Bool.eqb_prop in Hab, Hbc. subst. rewrite Bool.eqb_reflx. reflexivity.
    - injection Hab as Hab. injection Hbc as Hbc.
      apply Z.eqb_eq in Hab, Hbc. subst. rewrite Z.eqb_refl. reflexivity.
    - injection Hab as Hab. injection Hbc as Hbc.
      rewrite (double_eqb_trans _ _ _ Hab Hbc). reflexivity.
    - unfold asString, asString_with in *. simpl in *.
      injection Hab as Hab. injection Hbc as Hbc.
      apply String.eqb_eq in Hab, Hbc. subst. rewrite String.eqb_refl. reflexivity. }
  assert (Hstep : forall n,
            (forall x y z, nested_eq n h x y = Val true -> nested_eq n h y z = Val true ->
                           nested_eq n h x z = Val true) ->
            forall a b c, operator_eq n h a b = Val true -> operator_eq n h b c = Val true ->
                          operator_eq n h a c = Val true).
  { intros k Hk a b c Hab Hbc. destruct (isArray a) eqn:Ha.
    - destruct a as [| | | | | |pa]; try discriminate Ha.
      destruct b as [| | | | | |pb];
        try (rewrite tags_differ_not_equal in Hab by discriminate; discriminate Hab).
      destruct c as [| | | | | |pc];
        try (rewrite tags_differ_not_equal in Hbc by discriminate; discriminate Hbc).
      rewrite operator_eq_arrays in *. unfold deref_array in *.
      destruct (arrays h !! pa) as [xs|]; [|discriminate Hab].
      destruct (arrays h !! pb) as [ys|]; [|discriminate Hab].
      destruct (arrays h !! pc) as [zs|]; [|discriminate Hbc].
      simpl in *. apply vector_eq_true_iff in Hab as [Hl1 H1].
      apply vector_eq_true_iff in Hbc as [Hl2 H2].
      apply vector_eq_true_iff. split; [congruence|].
      intros i x z Hx Hz.
      destruct (ys !! i) as [y|] eqn:Hy.
      + apply (Hk x y z); [apply (H1 i) | apply (H2 i)]; assumption.
      + apply lookup_ge_None in Hy. apply lookup_lt_Some in Hx. lia.
    - assert (Hb : isArray b = false).
      { destruct a, b; try reflexivity; try discriminate Ha;
          rewrite tags_differ_not_equal in Hab by discriminate; discriminate Hab. }
      rewrite (operator_eq_scalar k h a b) in Hab by (rewrite Ha; reflexivity).
      rewrite (operator_eq_scalar k h b c) in Hbc by (rewrite Hb; reflexivity).
      rewrite (operator_eq_scalar k h a c) by (rewrite Ha; reflexivity).
      apply (Hscalar a b c); assumption. }
  induction n as [|n IH]; apply Hstep; simpl; [discriminate | exact IH].
Qed.

(** X6. [operator==] is transitive: when [a == b] and [b == c] return true,
    so does [a == c]. *)
Theorem equality_transitive (h : Heap) (a b c : Value) :
  Equal h a b -> Equal h b c -> Equal h a c.
Proof.
  intros [n Hn] [m Hm]. exists (Nat.max n m).
  apply (operator_eq_transitive_at _ h a b c).
  - apply (operator_eq_mono_le n); [lia | exact Hn].
  - apply (operator_eq_mono_le m); [lia | exact Hm].
Qed.

Lemma equality_transitive_witness :
  Equal (snd sample_arrays) (VArray 1) (VArray 1).
Proof.
  apply (equality_transitive (snd sample_arrays) (VArray 1) (VArray 2) (VArray 1));
    exists 1%nat; reflexivity.
Defined.

(** ** Algebra of the arithmetic operators *)

Lemma double_add_comm (x y : double) : Double.add x y = Double.add y x.
Proof.
  unfold Double.add.
  destruct x as [sx|sx| |sx mx ex], y as [sy|sy| |sy my ey]; simpl;
    try reflexivity; try (destruct sx, sy; reflexivity).
  rewrite (Z.min_comm ey ex), Z.add_comm. reflexivity.
Qed.

Lemma double_mul_comm (x y : double) : Double.mul x y = Double.mul y x.
Proof.
  unfold Double.mul.
  destruct x as [sx|sx| |sx mx ex], y as [sy|sy| |sy my ey]; simpl;
    try reflexivity; try (rewrite (xorb_comm sx sy); reflexivity).
  rewrite (xorb_comm sx sy), (Pos.mul_comm mx my), (Z.add_comm ex ey).
  reflexivity.
Qed.

Lemma double_sub_add_neg (x y : double) :
  Double.sub x y = Double.add x (Double.neg y).
Proof.
  unfold Double.sub, Double.add, Double.neg.
  destruct x as [sx|sx| |sx mx ex], y as [sy|sy| |sy my ey]; simpl;
    try reflexivity; destruct sx, sy; reflexivity.
Qed.

Lemma wrap64_add_l (x y : Z) : Int64.wrap64 (Int64.wrap64 x + y) = Int64.wrap64 (x + y).
Proof.
  apply wrap64_congr. rewrite Zplus_mod, wrap64_mod, <- Zplus_mod. reflexivity.
Qed.

Lemma wrap64_add_r (x y : Z) : Int64.wrap64 (x + Int64.wrap64 y) = Int64.wrap64 (x + y).
Proof. rewrite Z.add_comm, wrap64_add_l, Z.add_comm. reflexivity. Qed.

Lemma wrap64_mul_l (x y : Z) : Int64.wrap64 (Int64.wrap64 x * y) = Int64.wrap64 (x * y).
Proof.
  apply wrap64_congr. rewrite Zmult_mod, wrap64_mod, <- Zmult_mod. reflexivity.
Qed.

Lemma wrap64_mul_r (x y : Z) : Int64.wrap64 (x * Int64.wrap64 y) = Int64.wrap64 (x * y).
Proof. rewrite Z.mul_comm, wrap64_mul_l, Z.mul_comm. reflexivity. Qed.

(** X7. Addition is commutative on every pair of operands that are not
    both strings and of which none is a NaN (sums of Ints, of Floats and of
    mixed numeric operands, and the failure on other tags, are the same in
    either order); multiplication is commutative on all operands of which
    none is a NaN. *)
Theorem arithmetic_commutes :
  (forall fuel h a b, isString a && isString b = false ->
     is_nan_value a = false -> is_nan_value b = false ->
     operator_add fuel h a b = operator_add fuel h b a) /\
  (forall a b, is_nan_value a = false -> is_nan_value b = false ->
     operator_mul a b = operator_mul b a).
Proof.
  split.
  - intros fuel h a b Hs _ _.
    destruct a, b; try discriminate Hs; try reflexivity; unfold operator_add;
      simpl; f_equal; f_equal.
    + unfold Int64.add. rewrite Z.add_comm. reflexivity.
    + apply double_add_comm.
    + apply double_add_comm.
    + apply double_add_comm.
  - intros a b _ _.
    destruct a, b; try reflexivity; unfold operator_mul; simpl; f_equal; f_equal.
    + unfold Int64.mul. rewrite Z.mul_comm. reflexivity.
    + apply double_mul_comm.
    + apply double_mul_comm.
    + apply double_mul_comm.
Qed.

Lemma arithmetic_commutes_witness :
  operator_add 0 empty_heap (VInt 1) (VFloat (Double.of_int64 2))
  = operator_add 0 empty_heap (VFloat (Double.of_int64 2)) (VInt 1).
Proof.
  apply (proj1 arithmetic_commutes 0%nat empty_heap (VInt 1)
           (VFloat (Double.of_int64 2))); reflexivity.
Defined.

(** X8. On Int operands the operators follow the laws of arithmetic modulo
    [2^64]: addition and multiplication are associative, multiplication
    distributes over addition, and adding back what was subtracted returns
    the first operand. *)
Theorem int_ring_laws (fuel : nat) (h : Heap) (a b c : Z) :
  (x ← operator_add fuel h (VInt a) (VInt b); operator_add fuel h x (VInt c))
  = (y ← operator_add fuel h (VInt b) (VInt c); operator_add fuel h (VInt a) y) /\
  (x ← operator_mul (VInt a) (VInt b); operator_mul x (VInt c))
  = (y ← operator_mul (VInt b) (VInt c); operator_mul (VInt a) y) /\
  (s ← operator_add fuel h (VInt b) (VInt c); operator_mul (VInt a) s)
  = (p ← operator_mul (VInt a) (VInt b);
     q ← operator_mul (VInt a) (VInt c);
     operator_add fuel h p q) /\
  (d ← operator_sub (VInt a) (VInt b); operator_add fuel h d (VInt b))
  = Val (VInt (Int64.wrap64 a)).
Proof.
  unfold operator_add, operator_mul, operator_sub. simpl.
  unfold Int64.add, Int64.mul, Int64.sub.
  split; [|split; [|split]]; f_equal; f_equal.
  - rewrite wrap64_add_l, wrap64_add_r. f_equal. lia.
  - rewrite wrap64_mul_l, wrap64_mul_r. f_equal. lia.
  - rewrite wrap64_mul_r, wrap64_add_l, wrap64_add_r. f_equal. lia.
  - rewrite wrap64_add_l. f_equal. lia.
Qed.

(** X9. On two Ints, and on two Floats that are not NaNs, [a - b] is
    [a + (-b)], computed with unary negation and addition. *)
Theorem sub_is_add_of_negation (fuel : nat) (h : Heap) :
  (forall x y, operator_sub (VInt x) (VInt y)
     = (n ← operator_neg (VInt y); operator_add fuel h (VInt x) n)) /\
  (forall d e, Double.is_nan d = false -> Double.is_nan e = false ->
     operator_sub (VFloat d) (VFloat e)
     = (n ← operator_neg (VFloat e); operator_add fuel h (VFloat d) n)).
Proof.
  split.
  - intros x y. unfold operator_sub, operator_neg, operator_add. simpl.
    unfold Int64.sub, Int64.add, Int64.neg. rewrite wrap64_add_r.
    reflexivity.
  - intros d e _ _. unfold operator_sub, operator_neg, operator_add. simpl.
    rewrite double_sub_add_neg. reflexivity.
Qed.

Lemma sub_is_add_of_negation_witness :
  operator_sub (VFloat (Double.of_int64 5)) (VFloat (Double.of_int64 3))
  = (n ← operator_neg (VFloat (Double.of_int64 3));
     operator_add 0 empty_heap (VFloat (Double.of_int64 5)) n).
Proof.
  apply (proj2 (sub_is_add_of_negation 0 empty_heap) (Double.of_int64 5)
           (Double.of_int64 3)); reflexivity.
Defined.

(** X10. Unary negation is an involution on Int and on Float values, and
    throws "Cannot negate this value type" on every other tag. *)
Theorem neg_involutive :
  (forall i, Int64.in_range i ->
     (n ← operator_neg (VInt i); operator_neg n) = Val (VInt i)) /\
  (forall d, (n ← operator_neg (VFloat d); operator_neg n) = Val (VFloat d)) /\
  (forall v, isNumber v = false ->
     operator_neg v = Throw (runtime_error "Cannot negate this value type")).
Proof.
  split; [|split].
  - intros i Hi. unfold operator_neg. simpl. unfold Int64.neg.
    f_equal. f_equal. rewrite <- (wrap64_id i Hi) at 2.
    apply wrap64_congr. rewrite Z.opp_eq_mul_m1, Zmult_mod, wrap64_mod,
      <- Zmult_mod. f_equal. lia.
  - intros d. unfold operator_neg. simpl. unfold Double.neg.
    destruct d as [s|s| |s m e]; simpl; rewrite ?negb_involutive; reflexivity.
  - intros v Hv. destruct v; try discriminate Hv; reflexivity.
Qed.

Lemma neg_involutive_witness :
  (n ← operator_neg (VInt 5); operator_neg n) = Val (VInt 5) /\
  operator_neg (VString "a")
  = Throw (runtime_error "Cannot negate this value type").
Proof.
  destruct neg_involutive as (Hint & _ & Hbad). split.
  - apply (Hint 5). int64_bounds.
  - apply (Hbad (VString "a")). reflexivity.
Defined.

(** ** Results of the arithmetic operators *)

(** X11. A binary arithmetic operator that returns, returns an Int, a Float
    or a String: an Int, always within the range of [int64_t], only from two
    Int operands; a Float only from two numeric operands that are not both
    Int; a String only from two String operands. *)
Theorem arithmetic_result_tags (fuel : nat) (h : Heap) (a b v : Value) :
  operator_add fuel h a b = Val v \/ operator_sub a b = Val v \/
  operator_mul a b = Val v \/ operator_div a b = Val v \/
  operator_mod a b = Val v ->
  match v with
  | VInt i => isInt a && isInt b = true /\ Int64.in_range i
  | VFloat _ => isNumber a && isNumber b = true /\ isInt a && isInt b = false
  | VString _ => isString a && isString b = true
  | _ => False
  end.
Proof.
  unfold operator_add, operator_sub, operator_mul, operator_div, operator_mod,
    Int64.div, Int64.rem.
  destruct a, b; simpl;
    repeat match goal with
           | |- context [if ?c then _ else _] => destruct c eqn:?
           end;
    intros H; repeat (destruct H as [H|H]); try discriminate H;
    injection H as <-; repeat split; try apply wrap64_in_range;
    apply representable_in_range; assumption.
Qed.

Lemma arithmetic_result_tags_witness :
  isInt (VInt 7) && isInt (VInt 2) = true /\ Int64.in_range 3.
Proof.
  apply (arithmetic_result_tags 0 empty_heap (VInt 7) (VInt 2) (VInt 3)).
  right. right. right. left. reflexivity.
Defined.

(** ** Logical connectives *)

Lemma isTruthy_returns (fuel : nat) (h : Heap) (v : Value) :
  exists b, isTruthy fuel h v = Val b.
Proof.
  destruct v as [ |b|i|d|s|p|p]; try (eexists; reflexivity).
  unfold isTruthy, asString, asString_with. simpl.
  destruct (String.eqb s "true" || String.eqb s "1"); [eexists; reflexivity|].
  destruct (String.eqb s "false" || String.eqb s "0"); eexists; reflexivity.
Qed.

(** X12. [logicalAnd], [logicalOr] and [operator!] never throw and return
    the Bool computed from the truthiness of their operands; negating twice
    gives the operand's truthiness, and [!(a && b)] equals [!a || !b]. *)
Theorem logical_connectives (fuel : nat) (h : Heap) (a b : Value) :
  exists x y,
    isTruthy fuel h a = Val x /\ isTruthy fuel h b = Val y /\
    logicalAnd fuel h a b = Val (VBool (x && y)) /\
    logicalOr fuel h a b = Val (VBool (x || y)) /\
    operator_not fuel h a = Val (VBool (negb x)) /\
    (n ← operator_not fuel h a; operator_not fuel h n) = Val (VBool x) /\
    (r ← logicalAnd fuel h a b; operator_not fuel h r)
    = (na ← operator_not fuel h a; nb ← operator_not fuel h b;
       logicalOr fuel h na nb).
Proof.
  destruct (isTruthy_returns fuel h a) as [x Hx].
  destruct (isTruthy_returns fuel h b) as [y Hy].
  exists x, y. unfold logicalAnd, logicalOr, operator_not.
  rewrite Hx, Hy. simpl.
  repeat split; destruct x, y; reflexivity.
Qed.

(** ** Ordering *)

Lemma double_gtb_ltb (x y : double) : Double.gtb x y = Double.ltb y x.
Proof.
  unfold Double.gtb, Double.ltb, SFltb. rewrite (SFcompare_antisym x y).
  destruct (SFcompare x y) as [[| |]|]; reflexivity.
Qed.

Lemma string_gtb_ltb (x y : string) : string_gtb x y = String.ltb y x.
Proof.
  unfold string_gtb, String.ltb. rewrite (String.compare_antisym y x).
  destruct (String.compare x y); reflexivity.
Qed.

Lemma string_compare_refl (x : string) : String.compare x x = Eq.
Proof.
  pose proof (String.compare_antisym x x) as H.
  destruct (String.compare x x); [reflexivity | discriminate H | discriminate H].
Qed.

(** X13. [a > b] has the outcome of [b < a], and [a <= b] that of
    [b >= a], on all operands, failures included. *)
Theorem gt_is_flipped_lt (fuel : nat) (h : Heap) (a b : Value) :
  operator_gt fuel h a b = operator_lt fuel h b a /\
  operator_le fuel h a b = operator_ge fuel h b a.
Proof.
  assert (H : operator_gt fuel h a b = operator_lt fuel h b a).
  { unfold operator_gt, operator_lt.
    destruct a, b; try reflexivity; simpl; f_equal.
    - apply Z.gtb_ltb.
    - apply double_gtb_ltb.
    - apply double_gtb_ltb.
    - apply double_gtb_ltb.
    - unfold asString, asString_with. simpl. f_equal. apply string_gtb_ltb. }
  split; [exact H|]. unfold operator_le, operator_ge. rewrite H. reflexivity.
Qed.

(** X14. On two Ints and on two Strings exactly one of [a < b], [a == b],
    [a > b] is true, [a <= b] is [a < b || a == b] and [a >= b] is
    [a > b || a == b]. *)
Theorem ordering_trichotomy (fuel : nat) (h : Heap) (a b : Value) :
  (isInt a && isInt b) || (isString a && isString b) = true ->
  exists l e g,
    operator_lt fuel h a b = Val l /\ operator_eq fuel h a b = Val e /\
    operator_gt fuel h a b = Val g /\
    ((l, e, g) = (true, false, false) \/ (l, e, g) = (false, true, false) \/
     (l, e, g) = (false, false, true)) /\
    operator_le fuel h a b = Val (l || e) /\
    operator_ge fuel h a b = Val (g || e).
Proof.
  intros Hab. rewrite (operator_eq_scalar fuel h a b)
    by (destruct a, b; try reflexivity; discriminate Hab).
  unfold operator_le, operator_ge, operator_lt, operator_gt.
  destruct a as [| |x| |s| |], b as [| |y| |t| |]; try discriminate Hab; simpl.
  - rewrite Z.gtb_ltb.
    destruct (Z.ltb_spec x y), (Z.eqb_spec x y), (Z.ltb_spec y x); try lia;
      do 3 eexists; repeat split; auto.
  - unfold asString, asString_with. simpl. unfold String.ltb, string_gtb.
    destruct (String.compare s t) eqn:Hc.
    + apply String.compare_eq_iff in Hc. subst t. rewrite String.eqb_refl.
      do 3 eexists; repeat split; auto.
    + destruct (String.eqb_spec s t) as [->|_];
        [rewrite string_compare_refl in Hc; discriminate Hc|].
      do 3 eexists; repeat split; auto.
    + destruct (String.eqb_spec s t) as [->|_];
        [rewrite string_compare_refl in Hc; discriminate Hc|].
      do 3 eexists; repeat split; auto.
Qed.

Lemma ordering_trichotomy_witness :
  exists l e g,
    operator_lt 0 empty_heap (VString "ab") (VString "b") = Val l /\
    operator_eq 0 empty_heap (VString "ab") (VString "b") = Val e /\
    operator_gt 0 empty_heap (VString "ab") (VString "b") = Val g /\
    ((l, e, g) = (true, false, false) \/ (l, e, g) = (false, true, false) \/
     (l, e, g) = (false, false, true)) /\
    operator_le 0 empty_heap (VString "ab") (VString "b") = Val (l || e) /\
    operator_ge 0 empty_heap (VString "ab") (VString "b") = Val (g || e).
Proof.
  apply (ordering_trichotomy 0 empty_heap (VString "ab") (VString "b")).
  reflexivity.
Defined.

(** X15. Against a NaN every numeric operand is at once [<=] and [>=], on
    either side, while [<], [>] and [==] are all false: [<=] and [>=] are
    the negations of [>] and [<]. *)
Theorem nan_ordering (fuel : nat) (h : Heap) (a : Value) :
  isNumber a = true ->
  operator_lt fuel h a (VFloat S754_nan) = Val false /\
  operator_gt fuel h a (VFloat S754_nan) = Val false /\
  operator_le fuel h a (VFloat S754_nan) = Val true /\
  operator_ge fuel h a (VFloat S754_nan) = Val true /\
  operator_lt fuel h (VFloat S754_nan) a = Val false /\
  operator_gt fuel h (VFloat S754_nan) a = Val false /\
  operator_le fuel h (VFloat S754_nan) a = Val true /\
  operator_ge fuel h (VFloat S754_nan) a = Val true /\
  operator_eq fuel h a (VFloat S754_nan) = Val false.
Proof.
  intros Ha.
  assert (Hr : forall x, SFcompare x S754_nan = None) by (intros []; reflexivity).
  assert (Heq : operator_eq fuel h a (VFloat S754_nan) = Val false).
  { rewrite operator_eq_scalar by (destruct a; reflexivity).
    destruct a; try discriminate Ha; simpl; [reflexivity|].
    unfold Double.eqb, SFeqb. rewrite Hr. reflexivity. }
  unfold operator_le, operator_ge, operator_lt, operator_gt.
  destruct a; try discriminate Ha; simpl;
    unfold Double.ltb, Double.gtb, SFltb; rewrite !Hr; simpl;
    repeat split; exact Heq.
Qed.

Lemma nan_ordering_witness :
  operator_le 0 empty_heap (VInt 1) (VFloat S754_nan) = Val true /\
  operator_ge 0 empty_heap (VInt 1) (VFloat S754_nan) = Val true.
Proof.
  destruct (nan_ordering 0 empty_heap (VInt 1)) as (_ & _ & Hle & Hge & _);
    [reflexivity|].
  split; assumption.
Defined.

(** X16. The four ordering operators throw "Cannot compare these value
    types " on every pairing that is neither two numbers nor two strings;
    [<=] and [>=] pass on the failure of [>] and [<]. *)
Theorem ordering_incomparable (fuel : nat) (h : Heap) (a b : Value) :
  isNumber a && isNumber b = false -> isString a && isString b = false ->
  operator_lt fuel h a b = Throw (runtime_error "Cannot compare these value types ") /\
  operator_gt fuel h a b = Throw (runtime_error "Cannot compare these value types ") /\
  operator_le fuel h a b = Throw (runtime_error "Cannot compare these value types ") /\
  operator_ge fuel h a b = Throw (runtime_error "Cannot compare these value types ").
Proof.
  intros Hn Hs. unfold operator_le, operator_ge, operator_lt, operator_gt.
  destruct (isInt a && isInt b) eqn:Hi;
    [apply isInt_pair_number in Hi; congruence|].
  rewrite Hn, Hs. repeat split; reflexivity.
Qed.

Lemma ordering_incomparable_witness :
  operator_le 0 empty_heap (VInt 1) (VString "1")
  = Throw (runtime_error "Cannot compare these value types ").
Proof.
  apply (ordering_incomparable 0 empty_heap (VInt 1) (VString "1")); reflexivity.
Defined.

(** ** Rendering *)

Lemma toString_array (fuel : nat) (h : Heap) (p : handle) :
  toString fuel h (VArray p) =
    arr ← deref_array h p;
    result ← join_elements (nested_toString fuel h) arr "[";
    Val (result +:+ "]").
Proof. destruct fuel; reflexivity. Qed.

Lemma toString_scalar (fuel : nat) (h : Heap) (v : Value) :
  isArray v = false -> toString fuel h v = toString 0 h v.
Proof.
  intros Hv. destruct fuel; [reflexivity|].
  destruct v; try reflexivity; discriminate Hv.
Qed.

Lemma c_string_without_nul (s : string) : has_nul s = false -> c_string s = s.
Proof.
  induction s as [|c s IH]; simpl; [reflexivity|].
  destruct (Ascii.eqb c Ascii.zero); simpl; [discriminate|].
  intros Hs. rewrite (IH Hs). reflexivity.
Qed.

Lemma c_string_is_prefix (s : string) :
  has_nul (c_string s) = false /\ exists t, s = c_string s +:+ t.
Proof.
  induction s as [|c s [IHn [t IHt]]]; simpl.
  - split; [reflexivity | exists ""; reflexivity].
  - destruct (Ascii.eqb c Ascii.zero) eqn:Hc; simpl.
    + split; [reflexivity | exists (String c s); reflexivity].
    + rewrite Hc, IHn. split; [reflexivity|]. exists t.
      change (String c s = String c (c_string s +:+ t)). f_equal. exact IHt.
Qed.

(** X17. [asString] returns what [toString] returns on every value: the
    payload of a String, the rendering of anything else.  [c_str] gives the
    C string of a String, that is its characters before the first NUL (all
    of the payload when it holds no NUL), and throws on every other tag. *)
Theorem asString_is_toString :
  (forall fuel h v, asString fuel h v = toString fuel h v) /\
  (forall fuel h s, toString fuel h (VString s) = Val s) /\
  (forall s, c_str (VString s) = Val (c_string s) /\
             has_nul (c_string s) = false /\
             exists t, s = c_string s +:+ t) /\
  (forall s, has_nul s = false -> c_str (VString s) = Val s) /\
  (forall v, isString v = false ->
     c_str v = Throw (runtime_error "c_str() can only be called on string values")).
Proof.
  split; [|split; [|split; [|split]]].
  - intros fuel h v. destruct v; destruct fuel; reflexivity.
  - intros fuel h s. destruct fuel; reflexivity.
  - intros s. destruct (c_string_is_prefix s) as [Hn Ht].
    split; [reflexivity|]. split; assumption.
  - intros s Hs. unfold c_str. simpl. rewrite (c_string_without_nul s Hs).
    reflexivity.
  - intros v Hv. unfold c_str. rewrite Hv. reflexivity.
Qed.

Lemma asString_is_toString_witness :
  c_str (VString "ab") = Val "ab" /\
  c_str (VInt 1) = Throw (runtime_error "c_str() can only be called on string values").
Proof.
  destruct asString_is_toString as (_ & _ & _ & Hstr & Hbad). split.
  - apply (Hstr "ab"). reflexivity.
  - apply (Hbad (VInt 1)). reflexivity.
Defined.

Lemma join_elements_mono (f g : Value -> Outcome string) (xs : list Value) :
  (forall x s, f x = Val s -> g x = Val s) ->
  forall acc r, join_elements f xs acc = Val r -> join_elements g xs acc = Val r.
Proof.
  intros Hfg. induction xs as [|x xs IH]; intros acc r; simpl;
    [intros H; exact H|].
  destruct (f x) as [s| | |] eqn:Hf; simpl; try discriminate.
  rewrite (Hfg x s Hf). simpl. apply IH.
Qed.

Lemma toString_mono (n : nat) (h : Heap) :
  forall v s, toString n h v = Val s -> toString (S n) h v = Val s.
Proof.
  assert (Hstep : forall k,
            (forall x s, nested_toString k h x = Val s ->
                         nested_toString (S k) h x = Val s) ->
            forall v s, toString k h v = Val s -> toString (S k) h v = Val s).
  { intros k Hk v s Hs. destruct (isArray v) eqn:Hv.
    - destruct v as [| | | | | |p]; try discriminate Hv.
      rewrite toString_array in *.
      destruct (deref_array h p) as [xs| | |]; try discriminate Hs.
      simpl in *.
      destruct (join_elements (nested_toString k h) xs "[") as [r| | |] eqn:Hj;
        try discriminate Hs.
      rewrite (join_elements_mono _ _ xs Hk "[" r Hj). exact Hs.
    - rewrite toString_scalar by exact Hv.
      rewrite toString_scalar in Hs by exact Hv. exact Hs. }
  induction n as [|n IH]; apply Hstep; simpl; [discriminate | exact IH].
Qed.

Lemma toString_mono_le (n m : nat) (h : Heap) (v : Value) (s : string) :
  (n <= m)%nat -> toString n h v = Val s -> toString m h v = Val s.
Proof.
  intros Hle Hs. induction Hle as [|m Hle IH]; [exact Hs|].
  apply toString_mono. exact IH.
Qed.

Lemma join_elements_total (f : Value -> Outcome string) (xs : list Value) :
  (forall x, In x xs -> exists s, f x = Val s) ->
  forall acc, exists r, join_elements f xs acc = Val r.
Proof.
  induction xs as [|x xs IH]; intros Hf acc; simpl; [eexists; reflexivity|].
  destruct (Hf x) as [s Hs]; [left; reflexivity|]. rewrite Hs. simpl.
  apply IH. intros y Hy. apply Hf. right. exact Hy.
Qed.

Lemma toString_total (n : nat) (h : Heap) :
  forall v, well_nested n h v = true -> exists s, toString n h v = Val s.
Proof.
  induction n as [|n IH]; intros v Hv.
  - destruct v; try discriminate Hv; eexists; reflexivity.
  - destruct (isArray v) eqn:Ha.
    + destruct v as [| | | | | |p]; try discriminate Ha.
      simpl in Hv. rewrite toString_array. unfold deref_array.
      destruct (arrays h !! p) as [xs|]; [|discriminate Hv]. simpl.
      destruct (join_elements_total (toString n h) xs) with (acc := "[")
        as [r Hr].
      { intros x Hx. apply IH. rewrite forallb_forall in Hv. apply Hv. exact Hx. }
      rewrite Hr. simpl. eexists; reflexivity.
    + rewrite toString_scalar by exact Ha.
      destruct v; try discriminate Ha; eexists; reflexivity.
Qed.

(** X18. On a well nested value (array handles bound, nesting finite)
    [toString] returns a string, the same at every larger fuel. *)
Theorem toString_returns_on_well_nested (n : nat) (h : Heap) (v : Value) :
  well_nested n h v = true ->
  exists s, forall m, (n <= m)%nat -> toString m h v = Val s.
Proof.
  intros Hv. destruct (toString_total n h v Hv) as [s Hs].
  exists s. intros m Hm. apply (toString_mono_le n); assumption.
Qed.

Lemma toString_returns_on_well_nested_witness :
  exists s, forall m, (1 <= m)%nat ->
    toString m (snd sample_arrays) (VArray 1) = Val s.
Proof.
  apply (toString_returns_on_well_nested 1 (snd sample_arrays) (VArray 1)).
  reflexivity.
Defined.

Lemma string_app_assoc (a b c : string) : (a +:+ b) +:+ c = a +:+ (b +:+ c).
Proof.
  induction a as [|ch a IH]; [reflexivity|].
  change (String ch ((a +:+ b) +:+ c) = String ch (a +:+ (b +:+ c))).
  f_equal. exact IH.
Qed.

Lemma string_app_nil_r (a : string) : a +:+ "" = a.
Proof.
  induction a as [|ch a IH]; [reflexivity|].
  change (String ch (a +:+ "") = String ch a). f_equal. exact IH.
Qed.

Lemma join_elements_concat (f : Value -> Outcome string) (xs : list Value) (ss : list string) :
  Forall2 (fun x s => f x = Val s) xs ss ->
  forall acc, join_elements f xs acc = Val (acc +:+ String.concat ", " ss).
Proof.
  induction 1 as [|x s xs ss Hx Hrest IH]; intros acc; simpl.
  - rewrite string_app_nil_r. reflexivity.
  - rewrite Hx. simpl. destruct Hrest as [|x' s' xs' ss' Hx' Hrest'].
    + reflexivity.
    + rewrite IH. f_equal. rewrite !string_app_assoc. reflexivity.
Qed.

(** X19. An array renders as "[", the renderings of its elements in order
    separated by ", ", and "]"; the empty array renders as "[]". *)
Theorem toString_array_format (n : nat) (h : Heap) (p : handle) (xs : list Value) (ss : list string) :
  arrays h !! p = Some xs ->
  Forall2 (fun x s => toString n h x = Val s) xs ss ->
  toString (S n) h (VArray p) = Val ("[" +:+ String.concat ", " ss +:+ "]").
Proof.
  intros Hp Hss. rewrite toString_array. unfold deref_array. rewrite Hp.
  simpl mbind. unfold nested_toString.
  rewrite (join_elements_concat _ xs ss Hss). simpl. reflexivity.
Qed.

Lemma toString_array_format_witness :
  toString 1 (snd sample_arrays) (VArray 1) = Val "[1, 2]".
Proof.
  apply (toString_array_format 0 (snd sample_arrays) 1%positive
           [VInt 1; VInt 2] ["1"; "2"]%string).
  - reflexivity.
  - repeat constructor.
Defined.

(** X20. Distinct Ints have distinct renderings, and so have the two
    Bools; across tags the rendering is not injective: a String holding the
    decimal digits of an Int renders like that Int. *)
Theorem toString_int_injective (fuel : nat) (h : Heap) :
  (forall i j, i <> j -> toString fuel h (VInt i) <> toString fuel h (VInt j)) /\
  (forall i, toString fuel h (VString (pretty i)) = toString fuel h (VInt i)) /\
  (forall b c, b <> c -> toString fuel h (VBool b) <> toString fuel h (VBool c)).
Proof.
  split; [|split].
  - intros i j Hne. rewrite !(toString_scalar fuel) by reflexivity. simpl.
    intros [= Hij]. apply Hne. apply (inj pretty). exact Hij.
  - intros i. rewrite !(toString_scalar fuel) by reflexivity. reflexivity.
  - intros b c Hne. rewrite !(toString_scalar fuel) by reflexivity.
    destruct b, c; simpl; intros H; try discriminate H; apply Hne; reflexivity.
Qed.

Lemma toString_int_injective_witness :
  toString 0 empty_heap (VInt 10) <> toString 0 empty_heap (VInt (-10)) /\
  toString 0 empty_heap (VString "10") = toString 0 empty_heap (VInt 10).
Proof.
  split.
  - apply (proj1 (toString_int_injective 0 empty_heap) 10 (-10)). discriminate.
  - apply (proj1 (proj2 (toString_int_injective 0 empty_heap)) 10).
Defined.

(** ** Observations and the struct store *)

Lemma join_elements_ext (f g : Value -> Outcome string) (xs : list Value) :
  (forall x, f x = g x) ->
  forall acc, join_elements f xs acc = join_elements g xs acc.
Proof.
  intros Hfg. induction xs as [|x xs IH]; intros acc; simpl; [reflexivity|].
  rewrite (Hfg x). destruct (g x); simpl; try reflexivity. apply IH.
Qed.

Lemma equal_range_ext (f g : Value -> Value -> Outcome bool) (xs ys : list Value) :
  (forall x y, f x y = g x y) -> equal_range f xs ys = equal_range g xs ys.
Proof.
  intros Hfg. revert ys. induction xs as [|x xs IH]; intros [|y ys]; simpl;
    try reflexivity.
  rewrite (Hfg x y). destruct (g x y) as [[|]| | |]; simpl; try reflexivity.
  apply IH.
Qed.

Lemma toString_arrays_only (fuel : nat) (h h' : Heap) :
  arrays h = arrays h' -> forall v, toString fuel h v = toString fuel h' v.
Proof.
  intros Harr. induction fuel as [|n IH]; intros v.
  - destruct v; try reflexivity. rewrite !toString_array. unfold deref_array.
    rewrite Harr. reflexivity.
  - destruct (isArray v) eqn:Hv.
    + destruct v as [| | | | | |p]; try discriminate Hv.
      rewrite !toString_array. unfold deref_array. rewrite Harr.
      destruct (arrays h' !! p) as [xs|]; [|reflexivity]. simpl.
      rewrite (join_elements_ext (toString n h) (toString n h') xs IH).
      reflexivity.
    + rewrite !(toString_scalar (S n)) by exact Hv.
      destruct v; try reflexivity; discriminate Hv.
Qed.

Lemma operator_eq_arrays_only (fuel : nat) (h h' : Heap) :
  arrays h = arrays h' ->
  forall a b, operator_eq fuel h a b = operator_eq fuel h' a b.
Proof.
  intros Harr.
  assert (Hscalar : forall a b, isArray a && isArray b = false ->
            operator_eq 0 h a b = operator_eq 0 h' a b).
  { intros a b Hab. destruct a, b; try reflexivity; discriminate Hab. }
  assert (Hstep : forall n,
            (forall x y, nested_eq n h x y = nested_eq n h' x y) ->
            forall a b, operator_eq n h a b = operator_eq n h' a b).
  { intros n Hn a b. destruct (isArray a && isArray b) eqn:Hab.
    - destruct a as [| | | | | |pa], b as [| | | | | |pb]; try discriminate Hab.
      rewrite !operator_eq_arrays. unfold deref_array. rewrite Harr.
      destruct (arrays h' !! pa) as [xs|]; [|reflexivity].
      destruct (arrays h' !! pb) as [ys|]; [|reflexivity].
      simpl. unfold vector_eq.
      destruct (Nat.eqb (length xs) (length ys)); [|reflexivity].
      apply equal_range_ext. exact Hn.
    - rewrite !(operator_eq_scalar n) by exact Hab. apply Hscalar. exact Hab. }
  induction fuel as [|n IH]; apply Hstep; simpl; [reflexivity | exact IH].
Qed.

(** X21. Writing a field of a struct changes no rendering, no result of
    [operator==] and no truthiness, of any value: these read the arrays of
    the store only. *)
Theorem setField_preserves_observations (h h' : Heap) (r : Value) (name : string) (x : Value) :
  setField h r name x = Val h' ->
  forall fuel a b,
    toString fuel h' a = toString fuel h a /\
    operator_eq fuel h' a b = operator_eq fuel h a b /\
    isTruthy fuel h' a = isTruthy fuel h a.
Proof.
  intros Hset.
  assert (Harr : arrays h' = arrays h).
  { unfold setField in Hset. destruct (negb (isStruct r)); [discriminate Hset|].
    destruct (get_struct r) as [p| | |]; try discriminate Hset. simpl in Hset.
    destruct (deref_struct h p) as [s| | |]; try discriminate Hset.
    simpl in Hset. injection Hset as <-. reflexivity. }
  intros fuel a b. split; [|split].
  - apply toString_arrays_only. exact Harr.
  - apply operator_eq_arrays_only. exact Harr.
  - destruct a; reflexivity.
Qed.

Lemma setField_preserves_observations_witness :
  match setField (snd (createStruct "T" (snd sample_arrays))) (VStruct 1) "x" (VInt 5) with
  | Val h' =>
      toString 1 h' (VArray 1)
      = toString 1 (snd (createStruct "T" (snd sample_arrays))) (VArray 1)
  | _ => False
  end.
Proof.
  destruct (setField (snd (createStruct "T" (snd sample_arrays))) (VStruct 1) "x" (VInt 5))
    as [h'| | |] eqn:Hset; try (vm_compute in Hset; discriminate Hset).
  apply (setField_preserves_observations _ h' (VStruct 1) "x" (VInt 5) Hset
           1%nat (VArray 1) VNull).
Defined.

(** ** Arrays created from the same elements *)

(** A result of [operator==] is kept when the store gains array
    instances. *)
Lemma operator_eq_store_extension (n : nat) (h h' : Heap) :
  (forall p xs, arrays h !! p = Some xs -> arrays h' !! p = Some xs) ->
  forall a b r, operator_eq n h a b = Val r -> operator_eq n h' a b = Val r.
Proof.
  intros Hext.
  assert (Hscalar : forall a b, isArray a && isArray b = false ->
            operator_eq 0 h a b = operator_eq 0 h' a b).
  { intros a b Hab. destruct a, b; try reflexivity; discriminate Hab. }
  assert (Hstep : forall k,
            (forall x y r, nested_eq k h x y = Val r -> nested_eq k h' x y = Val r) ->
            forall a b r, operator_eq k h a b = Val r -> operator_eq k h' a b = Val r).
  { intros k Hk a b r Hr. destruct (isArray a && isArray b) eqn:Hab.
    - destruct a as [| | | | | |pa], b as [| | | | | |pb]; try discriminate Hab.
      rewrite operator_eq_arrays in *. unfold deref_array in *.
      destruct (arrays h !! pa) as [xs|] eqn:Ha; [|discriminate Hr].
      destruct (arrays h !! pb) as [ys|] eqn:Hb; [|discriminate Hr].
      rewrite (Hext pa xs Ha), (Hext pb ys Hb). simpl in *.
      revert Hr. apply vector_eq_mono. exact Hk.
    - rewrite (operator_eq_scalar k) in * by exact Hab.
      rewrite <- (Hscalar a b Hab). exact Hr. }
  induction n as [|n IH]; apply Hstep; simpl; [discriminate | exact IH].
Qed.

(** X22. Two arrays created from the same list of elements (free of
    structs and NaNs) are distinct instances that compare equal: equality
    of arrays goes by content, not by handle. *)
Theorem created_arrays_equal_by_content (n : nat) (h : Heap) (xs : list Value) :
  forallb (no_struct_no_nan n h) xs = true ->
  fst (createArray xs h) <> fst (createArray xs (snd (createArray xs h))) /\
  operator_eq (S n) (snd (createArray xs (snd (createArray xs h))))
    (fst (createArray xs h)) (fst (createArray xs (snd (createArray xs h))))
  = Val true.
Proof.
  intros Hxs. unfold createArray. cbn [fst snd arrays].
  set (p1 := fresh (dom (arrays h))).
  set (p2 := fresh (dom (<[p1 := xs]> (arrays h)))).
  assert (Hp1 : arrays h !! p1 = None) by (apply not_elem_of_dom, is_fresh).
  assert (Hp2 : <[p1 := xs]> (arrays h) !! p2 = None)
    by (apply not_elem_of_dom, is_fresh).
  assert (Hne : p1 <> p2).
  { intros Heq. rewrite <- Heq, lookup_insert_eq in Hp2. discriminate Hp2. }
  clearbody p1 p2. split; [congruence|].
  rewrite operator_eq_arrays. unfold deref_array. cbn [arrays].
  rewrite (lookup_insert_ne _ p2 p1) by congruence.
  rewrite !lookup_insert_eq. simpl. unfold vector_eq. rewrite Nat.eqb_refl.
  apply equal_range_refl. intros x Hx.
  apply (operator_eq_store_extension n h).
  - intros p ys Hp. cbn [arrays].
    assert (Hpp1 : p1 <> p) by congruence.
    assert (Hpp2 : p2 <> p).
    { intros <-. rewrite lookup_insert_ne in Hp2 by exact Hpp1. congruence. }
    rewrite !lookup_insert_ne by assumption. exact Hp.
  - apply operator_eq_refl. rewrite forallb_forall in Hxs. apply Hxs. exact Hx.
Qed.

Lemma created_arrays_equal_by_content_witness :
  fst (createArray [VInt 1; VString "a"] empty_heap)
  <> fst (createArray [VInt 1; VString "a"]
            (snd (createArray [VInt 1; VString "a"] empty_heap))) /\
  operator_eq 1
    (snd (createArray [VInt 1; VString "a"]
            (snd (createArray [VInt 1; VString "a"] empty_heap))))
    (fst (createArray [VInt 1; VString "a"] empty_heap))
    (fst (createArray [VInt 1; VString "a"]
            (snd (createArray [VInt 1; VString "a"] empty_heap))))
  = Val true.
Proof.
  apply (created_arrays_equal_by_content 0 empty_heap [VInt 1; VString "a"]).
  reflexivity.
Defined.

(** ** More on the arithmetic operators *)

(** X23. Subtraction and multiplication dispatch like addition on numbers
    (Int with Int gives the Int result reduced to 64 bits, other numeric
    pairings the Float result) and have no String case: every pairing with
    a non-numeric operand throws "Cannot subtract ..." or "Cannot multiply
    ...". *)
Theorem sub_mul_dispatch_on_tags :
  (forall x y, operator_sub (VInt x) (VInt y) = Val (VInt (Int64.wrap64 (x - y))) /\
               operator_mul (VInt x) (VInt y) = Val (VInt (Int64.wrap64 (x * y)))) /\
  (forall a b, isNumber a = true -> isNumber b = true -> isInt a && isInt b = false ->
     operator_sub a b = Val (VFloat (Double.sub (asFloat a) (asFloat b))) /\
     operator_mul a b = Val (VFloat (Double.mul (asFloat a) (asFloat b)))) /\
  (forall a b, isNumber a && isNumber b = false ->
     operator_sub a b = Throw (runtime_error "Cannot subtract these value types") /\
     operator_mul a b = Throw (runtime_error "Cannot multiply these value types")).
Proof.
  split; [|split].
  - intros x y. split; reflexivity.
  - intros a b Ha Hb Hi. unfold operator_sub, operator_mul.
    rewrite Hi, Ha, Hb. split; reflexivity.
  - intros a b Hn. unfold operator_sub, operator_mul.
    destruct (isInt a && isInt b) eqn:Hi;
      [apply isInt_pair_number in Hi; congruence|].
    rewrite Hn. split; reflexivity.
Qed.

Lemma sub_mul_dispatch_on_tags_witness :
  operator_sub (VString "ab") (VString "b")
  = Throw (runtime_error "Cannot subtract these value types") /\
  operator_mul (VString "ab") (VString "b")
  = Throw (runtime_error "Cannot multiply these value types").
Proof.
  apply (proj2 (proj2 sub_mul_dispatch_on_tags) (VString "ab") (VString "b")).
  reflexivity.
Defined.

(** X24. Addition of Strings is associative with the empty String as
    neutral element on both sides, and is not commutative: the two orders
    differ whenever the two concatenations differ. *)
Theorem string_concatenation_monoid (fuel : nat) (h : Heap) (s t u : string) :
  (x ← operator_add fuel h (VString s) (VString t); operator_add fuel h x (VString u))
  = (y ← operator_add fuel h (VString t) (VString u); operator_add fuel h (VString s) y) /\
  operator_add fuel h (VString s) (VString "") = Val (VString s) /\
  operator_add fuel h (VString "") (VString s) = Val (VString s) /\
  (s +:+ t <> t +:+ s ->
   operator_add fuel h (VString s) (VString t)
   <> operator_add fuel h (VString t) (VString s)).
Proof.
  unfold operator_add, asString, asString_with. simpl.
  split; [|split; [|split]].
  - rewrite string_app_assoc. reflexivity.
  - rewrite string_app_nil_r. reflexivity.
  - reflexivity.
  - intros Hne [= Heq]. apply Hne. exact Heq.
Qed.

Lemma string_concatenation_monoid_witness :
  operator_add 0 empty_heap (VString "a") (VString "b")
  <> operator_add 0 empty_heap (VString "b") (VString "a") /\
  operator_add 0 empty_heap (VString "a") (VString "") = Val (VString "a").
Proof.
  destruct (string_concatenation_monoid 0 empty_heap "a" "b" "")
    as (_ & Hnil & _ & Hnc).
  split; [apply Hnc; discriminate | exact Hnil].
Defined.

(** X25. For Ints [a] and [b], [b] nonzero and the quotient an [int64_t]:
    [a / b] and [a % b] return [q] and [r] with [a = q * b + r] exactly, the
    remainder smaller in magnitude than the divisor and of the sign of the
    dividend (or zero), and the quotient no larger in magnitude than the
    dividend. *)
Theorem mod_sign_and_bound (a b : Z) :
  Int64.in_range a -> Int64.in_range b -> b <> 0 ->
  ~ (a = Int64.min_signed /\ b = -1) ->
  exists q r,
    operator_div (VInt a) (VInt b) = Val (VInt q) /\
    operator_mod (VInt a) (VInt b) = Val (VInt r) /\
    a = q * b + r /\ Z.abs r < Z.abs b /\ 0 <= r * a /\ Z.abs q <= Z.abs a.
Proof.
  intros Ha Hb Hb0 Hov. exists (a ÷ b), (Z.rem a b).
  unfold operator_mod, operator_div. simpl.
  destruct (Z.eqb_spec b 0) as [|_]; [contradiction|].
  destruct (int64_div_rem_defined a b Ha Hb Hb0 Hov) as [-> ->].
  split; [reflexivity|]. split; [reflexivity|]. split; [|split; [|split]].
  - pose proof (Z.quot_rem' a b). lia.
  - rewrite <- Z.rem_abs by exact Hb0. apply Z.rem_bound_pos; lia.
  - apply Z.rem_sign_mul. exact Hb0.
  - rewrite <- Z.quot_abs by exact Hb0.
    apply Z.quot_le_upper_bound; [lia|].
    assert (1 <= Z.abs b) by lia. nia.
Qed.

Lemma mod_sign_and_bound_witness :
  exists q r,
    operator_div (VInt (-7)) (VInt 2) = Val (VInt q) /\
    operator_mod (VInt (-7)) (VInt 2) = Val (VInt r) /\
    -7 = q * 2 + r /\ Z.abs r < Z.abs 2 /\ 0 <= r * (-7) /\
    Z.abs q <= Z.abs (-7).
Proof.
  apply (mod_sign_and_bound (-7) 2); int64_bounds.
Defined.
